(** * daf-selective-disclosure: the [SelectiveDisclosure] agent plugin

    A shallow embedding of
    [packages/daf-selective-disclosure/src/action-handler.ts] and the
    properties of its three methods:

    - [createSelectiveDisclosureRequest]  (the request builder),
    - [getVerifiableCredentialsForSdr]    (the credential gatherer),
    - [validatePresentationAgainstSdr]    (the presentation validator).

    JavaScript objects used as string-keyed dictionaries are [gmap string
    JSVal]; optional properties are [option]; a rejected promise / thrown
    exception is the [Throw] branch of [result]; the calls made to the
    agent context (identity manager, key manager, data store) and to
    [createJWT] are recorded in an explicit trace. *)

From stdpp Require Import base option strings list gmap fin_maps.

Open Scope string_scope.
Open Scope list_scope.

(** ** JavaScript values

    Only what the plugin inspects is modelled.  Numbers are the integral
    ones (no [NaN]); objects, arrays and functions are opaque references,
    compared by identity as [===] does; the built-in functions and objects
    of the realm are references known by their name. *)

Inductive JSVal : Type :=
  | JUndefined
  | JNull
  | JBool (b : bool)
  | JNum (n : Z)
  | JStr (s : string)
  | JRef (addr : nat)
  | JBuiltin (name : string).

#[global] Instance JSVal_eq_dec : EqDecision JSVal.
Proof. solve_decision. Defined.

(** [a === b] *)
Definition strict_eq (a b : JSVal) : bool := bool_decide (a = b).

(** Truthiness of a string: every string but the empty one. *)
Definition truthy_str (s : string) : bool := negb (String.eqb s "").

(** An optional string property used as a condition ([if (x.p)], [x.p &&]):
    [Some s] when the property holds a non-empty string, [None] when it is
    [undefined] or [""]. *)
Definition truthy (o : option string) : option string :=
  match o with
  | Some s => if truthy_str s then Some s else None
  | None => None
  end.

(** [a || b] on optional strings. *)
Definition js_or (a b : option string) : option string :=
  match truthy a with
  | Some s => Some s
  | None => b
  end.

(** A plain object as the dictionary of its own properties.  Its
    prototype is [Object.prototype], whose properties it inherits: they
    all hold functions, except the accessor [__proto__], which yields the
    prototype object itself. *)
Abbreviation JSObject := (gmap string JSVal).

Definition object_prototype_keys : list string :=
  ["constructor"; "__defineGetter__"; "__defineSetter__"; "hasOwnProperty";
   "__lookupGetter__"; "__lookupSetter__"; "isPrototypeOf";
   "propertyIsEnumerable"; "toString"; "valueOf"; "__proto__";
   "toLocaleString"].

Definition object_prototype (k : string) : option JSVal :=
  if existsb (String.eqb k) object_prototype_keys
  then Some (if String.eqb k "__proto__" then JBuiltin "Object.prototype"
             else JBuiltin ("Object.prototype." +:+ k))
  else None.

(** The property read [o[k]]: the object's own property if it has one,
    else the inherited one, else [undefined]. *)
Definition js_get (o : JSObject) (k : string) : JSVal :=
  match o !! k with
  | Some v => v
  | None => default JUndefined (object_prototype k)
  end.

(** [xs.includes(v)] on an array of strings ([includes] compares with
    SameValueZero, which on strings is [===]). *)
Definition includes (xs : list string) (v : JSVal) : bool :=
  existsb (fun x => strict_eq (JStr x) v) xs.

(** ** Exceptions *)

Inductive JsError : Type :=
  | TypeError                      (* property read on [undefined] *)
  | Error (msg : string)           (* [throw Error(msg)] *)
  | Rejected (reason : string).    (* rejection coming from the agent *)

Inductive result (A : Type) : Type :=
  | Ok (a : A)
  | Throw (e : JsError).
Arguments Ok {A} a.
Arguments Throw {A} e.

#[global] Instance result_ret : MRet result := fun A a => Ok a.
#[global] Instance result_bind : MBind result :=
  fun A B f m => match m with Ok a => f a | Throw e => Throw e end.

Definition is_Ok {A} (r : result A) : Prop := ∃ a, r = Ok a.

(** [xs.filter(p)] where the callback may throw: elements are visited in
    order and the first exception aborts the traversal. *)
Fixpoint filterM {A} (p : A → result bool) (xs : list A) : result (list A) :=
  match xs with
  | [] => Ok []
  | x :: xs' =>
      b ← p x;
      rest ← filterM p xs';
      Ok (if b : bool then x :: rest else rest)
  end.

(** ** Data model (the interfaces of [./types] and [daf-core] the handler
    reads) *)

(** An entry of [issuers]. *)
Record Issuer := { did : string }.

(** [ICredentialRequestInput]: one requested claim. *)
Record ICredentialRequestInput := {
  claimType : option string;
  claimValue : option string;
  issuers : option (list Issuer);
  credentialType : option string;
  credentialContext : option string;
  essential : option bool;
}.

(** The decoded request as the gatherer and the validator read it. *)
Record ISelectiveDisclosureRequest := {
  subject : option string;
  claims : list ICredentialRequestInput;
}.

(** [credential.issuer] *)
Record CredentialIssuer := { id : JSVal }.

(** [VerifiableCredential].  The four properties the matching reads are
    optional here, so that a credential lacking one of them can be
    presented to the code. *)
Record VerifiableCredential := {
  credentialSubject : option JSObject;
  issuer : option CredentialIssuer;
  context : option (list string);       (* ['@context'] *)
  type : option (list string);
}.

Record VerifiablePresentation := {
  verifiableCredential : list VerifiableCredential;
}.

(** [ICredentialsForSdr]: [{ ...credentialRequest, credentials }].  The
    spread copies every property of the request, kept here as [request]. *)
Record ICredentialsForSdr := {
  request : ICredentialRequestInput;
  credentials : list VerifiableCredential;
}.

(** [IPresentationValidationResult] *)
Record IPresentationValidationResult := {
  valid : bool;
  result_claims : list ICredentialsForSdr;
}.

(** ** The presentation validator *)

(** [credential.credentialSubject[k]] *)
Definition subject_get (credential : VerifiableCredential) (k : string)
  : result JSVal :=
  match credentialSubject credential with
  | Some o => Ok (js_get o k)
  | None => Throw TypeError
  end.

(** [credential.issuer.id] *)
Definition issuer_id (credential : VerifiableCredential) : result JSVal :=
  match issuer credential with
  | Some i => Ok (id i)
  | None => Throw TypeError
  end.

(** [credential['@context'].includes(s)] and [credential.type.includes(s)] *)
Definition seq_includes (xs : option (list string)) (s : string)
  : result bool :=
  match xs with
  | Some l => Ok (includes l (JStr s))
  | None => Throw TypeError
  end.

(** The callback handed to [filter] at lines 152-187.  Each [mismatch_*]
    is the condition of one [if (...) return false]; [&&] evaluates its
    right operand only when the left one is truthy. *)
Definition mismatch_value cr credential : result bool :=
  match truthy (claimType cr), truthy (claimValue cr) with
  | Some T, Some V =>
      v ← subject_get credential T; Ok (negb (strict_eq v (JStr V)))
  | _, _ => Ok false
  end.

Definition mismatch_presence cr credential : result bool :=
  match truthy (claimType cr), truthy (claimValue cr) with
  | Some T, None =>
      v ← subject_get credential T; Ok (strict_eq v JUndefined)
  | _, _ => Ok false
  end.

Definition mismatch_issuer cr credential : result bool :=
  match issuers cr with
  | Some iss =>
      i ← issuer_id credential; Ok (negb (includes (map did iss) i))
  | None => Ok false
  end.

Definition mismatch_context cr credential : result bool :=
  match truthy (credentialContext cr) with
  | Some c => b ← seq_includes (context credential) c; Ok (negb b)
  | None => Ok false
  end.

Definition mismatch_type cr credential : result bool :=
  match truthy (credentialType cr) with
  | Some t => b ← seq_includes (type credential) t; Ok (negb b)
  | None => Ok false
  end.

Definition matches (cr : ICredentialRequestInput)
    (credential : VerifiableCredential) : result bool :=
  b1 ← mismatch_value cr credential;
  if b1 : bool then Ok false else
  b2 ← mismatch_presence cr credential;
  if b2 : bool then Ok false else
  b3 ← mismatch_issuer cr credential;
  if b3 : bool then Ok false else
  b4 ← mismatch_context cr credential;
  if b4 : bool then Ok false else
  b5 ← mismatch_type cr credential;
  if b5 : bool then Ok false else
  Ok true.

(** The body of the [for ... of args.sdr.claims] loop, on the loop state
    [(valid, claims)]. *)
Definition validate_step (presentation : VerifiablePresentation)
    (st : bool * list ICredentialsForSdr) (cr : ICredentialRequestInput)
  : result (bool * list ICredentialsForSdr) :=
  let '(valid, claims) := st in
  creds ← filterM (matches cr) (verifiableCredential presentation);
  let valid' :=
    if bool_decide (essential cr = Some true) && (length creds =? 0)%nat
    then false else valid in
  Ok (valid', claims ++ [{| request := cr; credentials := creds |}]).

Fixpoint validate_loop (presentation : VerifiablePresentation)
    (crs : list ICredentialRequestInput)
    (st : bool * list ICredentialsForSdr)
  : result (bool * list ICredentialsForSdr) :=
  match crs with
  | [] => Ok st
  | cr :: crs' =>
      st' ← validate_step presentation st cr;
      validate_loop presentation crs' st'
  end.

Definition validatePresentationAgainstSdr
    (sdr : ISelectiveDisclosureRequest)
    (presentation : VerifiablePresentation)
  : result IPresentationValidationResult :=
  '(valid, claims) ← validate_loop presentation (claims sdr) (true, []);
  Ok {| valid := valid; result_claims := claims |}.

(** ** The credential gatherer *)

(** One entry of [FindArgs<TClaimsColumns>.where]. *)
Record Where := {
  column : string;
  value : list string;
  op : option string;
}.

(** [where] is a reserved word, hence [where_]. *)
Record FindArgs := { where_ : list Where }.

(** [arr.push(x)] *)
Definition push {A} (arr : list A) (x : A) : list A := arr ++ [x].

(** [if (c) findArgs.where?.push(item)]; [where] is always an array here. *)
Definition push_if {A} (c : option A) (item : A → Where) (w : list Where)
  : list Where :=
  match c with
  | Some a => push w (item a)
  | None => w
  end.

(** Lines 93-123: the pushes one loop iteration performs on
    [findArgs.where], in order. *)
Definition push_filters (args_did : option string)
    (sdr : ISelectiveDisclosureRequest) (credentialRequest : ICredentialRequestInput)
    (w : list Where) : list Where :=
  let w := push_if (truthy (claimType credentialRequest))
             (fun t => {| column := "type"; value := [t]; op := None |}) w in
  let w := push_if (truthy (claimValue credentialRequest))
             (fun v => {| column := "value"; value := [v]; op := None |}) w in
  let w := push_if (issuers credentialRequest)
             (fun iss => {| column := "issuer"; value := map did iss; op := None |}) w in
  let w := push_if (truthy (credentialType credentialRequest))
             (fun t => {| column := "credentialType";
                          value := ["%" +:+ t +:+ "%"]; op := Some "Like" |}) w in
  let w := push_if (truthy (credentialContext credentialRequest))
             (fun c => {| column := "context";
                          value := ["%" +:+ c +:+ "%"]; op := Some "Like" |}) w in
  let w := push_if (truthy (js_or args_did (subject sdr)))
             (fun s => {| column := "subject"; value := ["" +:+ s]; op := None |}) w in
  w.

Section Gatherer.

(** [context.agent.dataStoreORMGetVerifiableCredentialsByClaims] *)
Variable dataStoreORMGetVerifiableCredentialsByClaims :
  FindArgs → result (list VerifiableCredential).

(** Loop state: the contents of the one [findArgs.where] array, the
    [result] array, and the queries sent to the store so far. *)
Record GatherState := {
  g_where : list Where;
  g_result : list ICredentialsForSdr;
  g_queries : list FindArgs;
}.

Definition gather_step (args_did : option string)
    (sdr : ISelectiveDisclosureRequest)
    (st : GatherState) (credentialRequest : ICredentialRequestInput)
  : GatherState * result unit :=
  let w := push_filters args_did sdr credentialRequest (g_where st) in
  let findArgs := {| where_ := w |} in
  let queries := push (g_queries st) findArgs in
  match dataStoreORMGetVerifiableCredentialsByClaims findArgs with
  | Ok creds =>
      ({| g_where := w;
          g_result := push (g_result st)
                        {| request := credentialRequest; credentials := creds |};
          g_queries := queries |}, Ok ())
  | Throw e =>
      ({| g_where := w; g_result := g_result st; g_queries := queries |},
       Throw e)
  end.

Fixpoint gather_loop (args_did : option string)
    (sdr : ISelectiveDisclosureRequest)
    (crs : list ICredentialRequestInput) (st : GatherState)
  : GatherState * result unit :=
  match crs with
  | [] => (st, Ok ())
  | cr :: crs' =>
      match gather_step args_did sdr st cr with
      | (st', Ok _) => gather_loop args_did sdr crs' st'
      | (st', Throw e) => (st', Throw e)
      end
  end.

(** Returns the queries the store received, in order, next to the value
    the promise settles with. *)
Definition getVerifiableCredentialsForSdr
    (sdr : ISelectiveDisclosureRequest) (args_did : option string)
  : list FindArgs * result (list ICredentialsForSdr) :=
  let init := {| g_where := []; g_result := []; g_queries := [] |} in
  match gather_loop args_did sdr (claims sdr) init with
  | (st, Ok _) => (g_queries st, Ok (g_result st))
  | (st, Throw e) => (g_queries st, Throw e)
  end.

End Gatherer.

(** ** The request builder *)

Record IKey := { kid : string; key_type : string }.
Record IIdentity := { identity_did : string; keys : list IKey }.

(** The options object handed to [createJWT]; the [signer] closure is
    determined by the [kid] it captures. *)
Record JWTOptions := {
  signer_kid : string;
  alg : string;
  jwt_issuer : string;
}.

(** What the builder does to the outside world, in order. *)
Inductive Call : Type :=
  | Call_identityManagerGetIdentity (did_arg : JSVal)
  | Call_Debug (namespace : string) (msg : string) (arg : string)
  | Call_createJWT (payload : JSObject) (options : JWTOptions).

(** Outcome of a call of the builder: the caller's [args.data] object as
    it is once the promise has settled, the calls made, and the value. *)
Record BuildOutcome := {
  data_after : JSObject;
  trace : list Call;
  settled : result string;
}.

(** The callback of [identity.keys.find]: [(k) => k.type === 'Secp256k1']. *)
Definition has_signing_key_type (k : IKey) : bool :=
  String.eqb (key_type k) "Secp256k1".

Section Builder.

Variable identityManagerGetIdentity : JSVal → result IIdentity.
Variable createJWT : JSObject → JWTOptions → result string.

Definition createSelectiveDisclosureRequest (data : JSObject)
  : BuildOutcome :=
  let did_arg := js_get data "issuer" in
  match identityManagerGetIdentity did_arg with
  | Throw e =>
      {| data_after := data;
         trace := [Call_identityManagerGetIdentity did_arg];
         settled := Throw e |}
  | Ok identity =>
      (* delete data.issuer *)
      let data := delete "issuer" data in
      let tr := [Call_identityManagerGetIdentity did_arg;
                 Call_Debug "daf:selective-disclosure:create-sdr"
                   "Signing SDR with" (identity_did identity)] in
      match List.find has_signing_key_type (keys identity) with
      | None =>
          {| data_after := data; trace := tr;
             settled := Throw (Error "Signing key not found") |}
      | Some key =>
          (* { type: 'sdr', ...data }: a property of [data] wins *)
          let payload := data ∪ {[ "type" := JStr "sdr" ]} in
          let options := {| signer_kid := kid key; alg := "ES256K-R";
                            jwt_issuer := identity_did identity |} in
          {| data_after := data;
             trace := push tr (Call_createJWT payload options);
             settled := createJWT payload options |}
      end
  end.

End Builder.

(** * Vocabulary of the properties *)

(** ** The matching predicate *)

(** "No other constraints": neither [issuers] nor [credentialType] nor
    [credentialContext] is set. *)
Definition no_other_constraints (cr : ICredentialRequestInput) : Prop :=
  issuers cr = None ∧ credentialType cr = None ∧ credentialContext cr = None.

(** The JavaScript expressions [credential.credentialSubject[T] === V] and
    [credential.credentialSubject[T] !== undefined], evaluated on a
    credential (they throw when [credentialSubject] is missing). *)
Definition subject_equals credential (T V : string) : result bool :=
  v ← subject_get credential T; Ok (strict_eq v (JStr V)).

Definition subject_defined credential (T : string) : result bool :=
  v ← subject_get credential T; Ok (negb (strict_eq v JUndefined)).

(** A credential as the [VerifiableCredential] interface declares it:
    the four properties the matching reads are present. *)
Definition well_typed_credential (c : VerifiableCredential) : Prop :=
  is_Some (credentialSubject c) ∧ is_Some (issuer c) ∧
  is_Some (context c) ∧ is_Some (type c).

(** ** The validator's result *)

(** An entry of the result that is essential and matched nothing. *)
Definition unsatisfied_essential (e : ICredentialsForSdr) : Prop :=
  essential (request e) = Some true ∧ credentials e = [].

Definition unsatisfied_essentialb (e : ICredentialsForSdr) : bool :=
  bool_decide (essential (request e) = Some true)
  && (length (credentials e) =? 0)%nat.

(** The entry the loop appends for a request: the request itself, next to
    the presented credentials the predicate kept. *)
Definition entry_for (presentation : VerifiablePresentation)
    (cr : ICredentialRequestInput) (e : ICredentialsForSdr) : Prop :=
  request e = cr ∧
  filterM (matches cr) (verifiableCredential presentation) = Ok (credentials e).

(** ** The gatherer's queries *)

(** The filter built from one request alone (and the subject constraint):
    what an iteration pushes, starting from an empty [where]. *)
Definition own_filters (args_did : option string)
    (sdr : ISelectiveDisclosureRequest) (cr : ICredentialRequestInput)
  : list Where :=
  push_filters args_did sdr cr [].

(** The queries the loop sends when no query fails, from a [where] array
    holding [w]. *)
Fixpoint expected_queries (args_did : option string)
    (sdr : ISelectiveDisclosureRequest)
    (crs : list ICredentialRequestInput) (w : list Where) : list FindArgs :=
  match crs with
  | [] => []
  | cr :: crs' =>
      let w' := push_filters args_did sdr cr w in
      {| where_ := w' |} :: expected_queries args_did sdr crs' w'
  end.

Definition like_item (col s : string) : Where :=
  {| column := col; value := ["%" +:+ s +:+ "%"]; op := Some "Like" |}.

Definition eq_item (col s : string) : Where :=
  {| column := col; value := [s]; op := None |}.

(** ** Sample requests, credentials and collaborators *)

Definition mk_request (T V : option string) (iss : option (list Issuer))
    (cty cctx : option string) (ess : option bool) : ICredentialRequestInput :=
  {| claimType := T; claimValue := V; issuers := iss;
     credentialType := cty; credentialContext := cctx; essential := ess |}.

Definition mk_credential (subj : JSObject) (iss : string)
    (ctx ty : list string) : VerifiableCredential :=
  {| credentialSubject := Some subj; issuer := Some {| id := JStr iss |};
     context := Some ctx; type := Some ty |}.

Definition alice : JSObject := {[ "name" := JStr "Alice" ]}.

Definition cred_alice : VerifiableCredential :=
  mk_credential alice "did:x" [] [].

Definition cred_nameless : VerifiableCredential :=
  mk_credential ∅ "did:x" [] [].

Definition cred_profile : VerifiableCredential :=
  mk_credential alice "did:x" [] ["VerifiableCredential"; "Profile"].

(** [cred_alice] without its ['@context'], and without its [type]. *)
Definition cred_no_context : VerifiableCredential :=
  {| credentialSubject := Some alice; issuer := Some {| id := JStr "did:x" |};
     context := None; type := Some [] |}.

Definition cred_no_type : VerifiableCredential :=
  {| credentialSubject := Some alice; issuer := Some {| id := JStr "did:x" |};
     context := Some []; type := None |}.

(** One essential claim on [name]. *)
Definition claim_name_essential : ICredentialRequestInput :=
  mk_request (Some "name") None None None None (Some true).

Definition sdr_name : ISelectiveDisclosureRequest :=
  {| subject := None; claims := [claim_name_essential] |}.

(** The same claim type requested twice, the second time not essential. *)
Definition sdr_name_twice : ISelectiveDisclosureRequest :=
  {| subject := None;
     claims := [claim_name_essential;
                mk_request (Some "name") None None None None None] |}.

Definition sdr_name_email : ISelectiveDisclosureRequest :=
  {| subject := None;
     claims := [mk_request (Some "name") (Some "Alice") None None None None;
                mk_request (Some "email") None None None None None] |}.

Definition sdr_context : ISelectiveDisclosureRequest :=
  {| subject := None;
     claims := [mk_request None None None None (Some "ctx") None] |}.

Definition sdr_type : ISelectiveDisclosureRequest :=
  {| subject := None;
     claims := [mk_request None None None (Some "Profile") None None] |}.

(** A store holding nothing. *)
Definition empty_store : FindArgs → result (list VerifiableCredential) :=
  λ _, Ok [].

(** An identity manager knowing one identity, [did:z], with one key. *)
Definition identity_z : IIdentity :=
  {| identity_did := "did:z";
     keys := [{| kid := "key-1"; key_type := "Secp256k1" |}] |}.

Definition resolver_z (d : JSVal) : result IIdentity :=
  if strict_eq d (JStr "did:z") then Ok identity_z
  else Throw (Rejected "Identity not found").

Definition jwt_stub (payload : JSObject) (options : JWTOptions)
  : result string :=
  Ok "jwt".

(** A manifest whose [issuer] is [did:z]. *)
Definition manifest_z : JSObject :=
  {[ "issuer" := JStr "did:z"; "claims" := JRef 0 ]}.

(** ** Vocabulary of the further properties *)

(** The properties of a credential that the predicate reads for a given
    request are present: [credentialSubject] when [claimType] is a
    non-empty string, [issuer] when [issuers] is set, ['@context'] and
    [type] when [credentialContext] and [credentialType] are non-empty. *)
Definition reads_present (cr : ICredentialRequestInput)
    (c : VerifiableCredential) : Prop :=
  (is_Some (truthy (claimType cr)) → is_Some (credentialSubject c)) ∧
  (is_Some (issuers cr) → is_Some (issuer c)) ∧
  (is_Some (truthy (credentialContext cr)) → is_Some (context c)) ∧
  (is_Some (truthy (credentialType cr)) → is_Some (type c)).

(** [credentialRequest.essential === true] *)
Definition is_essential (cr : ICredentialRequestInput) : bool :=
  bool_decide (essential cr = Some true).

(** A credential none of whose properties is there. *)
Definition cred_bare : VerifiableCredential :=
  {| credentialSubject := None; issuer := None;
     context := None; type := None |}.

(** A credential with a [credentialSubject] and nothing else. *)
Definition cred_subject_only : VerifiableCredential :=
  {| credentialSubject := Some alice; issuer := None;
     context := None; type := None |}.

(** A store that rejects every query. *)
Definition store_down : FindArgs → result (list VerifiableCredential) :=
  λ _, Throw (Rejected "store unavailable").

(** A request about the subject [did:holder]. *)
Definition sdr_with_subject : ISelectiveDisclosureRequest :=
  {| subject := Some "did:holder";
     claims := [mk_request (Some "name") None None None None None] |}.

(** An identity whose first key cannot sign and whose next two can. *)
Definition identity_multi : IIdentity :=
  {| identity_did := "did:z";
     keys := [{| kid := "key-ed"; key_type := "Ed25519" |};
              {| kid := "key-a"; key_type := "Secp256k1" |};
              {| kid := "key-b"; key_type := "Secp256k1" |}] |}.

Definition resolver_multi (d : JSVal) : result IIdentity :=
  if strict_eq d (JStr "did:z") then Ok identity_multi
  else Throw (Rejected "Identity not found").

(** A manifest that brings a [type] property of its own. *)
Definition manifest_typed : JSObject :=
  {[ "issuer" := JStr "did:z"; "type" := JStr "other" ]}.

(** ** Proof automation *)

(** Both sides of an equivalence are absurd equations between results. *)
Ltac refute_iff :=
  split; [congruence | intros (? & ? & ? & ? & ?); congruence].

(** * Properties *)

(** ** Truthiness gating *)

Lemma truthy_str_true (s : string) : truthy_str s = true ↔ s ≠ "".
Proof.
  unfold truthy_str. rewrite negb_true_iff. apply String.eqb_neq.
Qed.

Lemma truthy_nonempty (s : string) : s ≠ "" → truthy (Some s) = Some s.
Proof.
  intros Hs. unfold truthy. apply truthy_str_true in Hs. by rewrite Hs.
Qed.

Lemma truthy_empty : truthy (Some "") = None.
Proof. reflexivity. Qed.

Lemma truthy_Some (o : option string) (s : string) :
  truthy o = Some s ↔ o = Some s ∧ s ≠ "".
Proof.
  split.
  - destruct o as [x|]; simpl; [|done].
    destruct (truthy_str x) eqn:Hx; [|done].
    intros [= ->]. by apply truthy_str_true in Hx.
  - intros [-> Hs]. by apply truthy_nonempty.
Qed.

Lemma truthy_idemp (o : option string) : truthy (truthy o) = truthy o.
Proof.
  destruct o as [x|]; simpl; [|done].
  destruct (truthy_str x) eqn:Hx; simpl; [|done]. by rewrite Hx.
Qed.

(** ** Strict equality and [includes] *)

Lemma strict_eq_true (a b : JSVal) : strict_eq a b = true ↔ a = b.
Proof. unfold strict_eq. apply bool_decide_eq_true. Qed.

Lemma strict_eq_false (a b : JSVal) : strict_eq a b = false ↔ a ≠ b.
Proof. unfold strict_eq. apply bool_decide_eq_false. Qed.

Lemma includes_str (xs : list string) (s : string) :
  includes xs (JStr s) = true ↔ s ∈ xs.
Proof.
  unfold includes. rewrite existsb_exists. split.
  - intros (x & Hin & Heq). apply strict_eq_true in Heq.
    injection Heq as ->. by apply list_elem_of_In.
  - intros Hin. exists s. split; [by apply list_elem_of_In|].
    by apply strict_eq_true.
Qed.

(** ** The matching predicate under a single constraint *)

Lemma matches_value_only cr credential T V :
  truthy (claimType cr) = Some T →
  truthy (claimValue cr) = Some V →
  no_other_constraints cr →
  matches cr credential = subject_equals credential T V.
Proof.
  intros HT HV (Hi & Ht & Hc).
  unfold matches, mismatch_value, mismatch_presence, mismatch_issuer,
    mismatch_context, mismatch_type, subject_equals.
  rewrite HT, HV, Hi, Ht, Hc. simpl.
  destruct (subject_get credential T) as [v|e]; simpl; [|done].
  by destruct (strict_eq v (JStr V)).
Qed.

Lemma matches_type_only cr credential T :
  truthy (claimType cr) = Some T →
  truthy (claimValue cr) = None →
  no_other_constraints cr →
  matches cr credential = subject_defined credential T.
Proof.
  intros HT HV (Hi & Ht & Hc).
  unfold matches, mismatch_value, mismatch_presence, mismatch_issuer,
    mismatch_context, mismatch_type, subject_defined.
  rewrite HT, HV, Hi, Ht, Hc. simpl.
  destruct (subject_get credential T) as [v|e]; simpl; [|done].
  by destruct (strict_eq v JUndefined).
Qed.

Lemma matches_no_claimType cr credential :
  truthy (claimType cr) = None →
  no_other_constraints cr →
  matches cr credential = Ok true.
Proof.
  intros HT (Hi & Ht & Hc).
  unfold matches, mismatch_value, mismatch_presence, mismatch_issuer,
    mismatch_context, mismatch_type.
  by rewrite HT, Hi, Ht, Hc.
Qed.

(** C3 (as amended).  A request whose [claimType] is a non-empty [T] and
    whose [claimValue] is a non-empty [V], with no other constraint,
    accepts a credential exactly when [credential.credentialSubject[T] ===
    V]: the predicate evaluates as that expression does, and on a
    credential with a [credentialSubject] it answers [true] iff the entry
    is the string [V] itself (a number or any other kind of value never
    equals it). *)
Theorem C3_value_match_nonempty cr credential (T V : string) :
  claimType cr = Some T → claimValue cr = Some V →
  T ≠ "" → V ≠ "" →
  no_other_constraints cr →
  matches cr credential = subject_equals credential T V ∧
  ∀ cs : JSObject, credentialSubject credential = Some cs →
    (matches cr credential = Ok true ↔ js_get cs T = JStr V).
Proof.
  intros HT HV HTne HVne Hno.
  assert (Heq : matches cr credential = subject_equals credential T V).
  { apply matches_value_only; [| |done].
    - rewrite HT. by apply truthy_nonempty.
    - rewrite HV. by apply truthy_nonempty. }
  split; [done|].
  intros cs Hcs. rewrite Heq.
  unfold subject_equals, subject_get. rewrite Hcs. simpl.
  rewrite <- strict_eq_true. split; [by intros [= ->]|by intros ->].
Qed.

Lemma C3_value_match_nonempty_witness :
  let cr := mk_request (Some "name") (Some "Alice") None None None None in
  matches cr cred_alice = subject_equals cred_alice "name" "Alice" ∧
  ∀ cs : JSObject, credentialSubject cred_alice = Some cs →
    (matches cr cred_alice = Ok true ↔ js_get cs "name" = JStr "Alice").
Proof.
  apply (C3_value_match_nonempty
           (mk_request (Some "name") (Some "Alice") None None None None)
           cred_alice "name" "Alice");
    [reflexivity | reflexivity | discriminate | discriminate
    | repeat split].
Defined.

(** C3 as stated fails when the value asked for is the empty string: the
    request [{claimType: "name", claimValue: ""}] accepts a credential
    whose [name] is ["Alice"], which is not [=== ""]. *)
Lemma C3_empty_value_counterexample :
  let cr := mk_request (Some "name") (Some "") None None None None in
  claimType cr = Some "name" ∧ claimValue cr = Some "" ∧
  no_other_constraints cr ∧
  credentialSubject cred_alice = Some alice ∧
  ¬ (matches cr cred_alice = Ok true ↔ js_get alice "name" = JStr "").
Proof.
  repeat split. intros [H _].
  assert (Hm : js_get alice "name" = JStr "") by (apply H; reflexivity).
  vm_compute in Hm. discriminate.
Qed.

(** C4 (as amended).  A request whose [claimType] is a non-empty [T], with
    [claimValue] unset and no other constraint, accepts a credential
    exactly when [credential.credentialSubject[T]] is not [undefined], and
    rejects it exactly when it is: an entry holding [""], [0], [null] or
    [false] counts as present; a missing entry fails, unless [T] names a
    property every object inherits (such as [toString]), whose read is
    defined as well. *)
Theorem C4_presence_match_nonempty cr credential (T : string) :
  claimType cr = Some T → claimValue cr = None →
  T ≠ "" →
  no_other_constraints cr →
  matches cr credential = subject_defined credential T ∧
  ∀ cs : JSObject, credentialSubject credential = Some cs →
    (matches cr credential = Ok true ↔ js_get cs T ≠ JUndefined) ∧
    (matches cr credential = Ok false ↔ js_get cs T = JUndefined) ∧
    (∀ v, cs !! T = Some v → v ∈ [JStr ""; JNum 0; JNull; JBool false] →
          matches cr credential = Ok true) ∧
    (cs !! T = None → object_prototype T = None →
     matches cr credential = Ok false).
Proof.
  intros HT HV HTne Hno.
  assert (Heq : matches cr credential = subject_defined credential T).
  { apply matches_type_only; [| |done].
    - rewrite HT. by apply truthy_nonempty.
    - by rewrite HV. }
  split; [done|].
  intros cs Hcs. rewrite Heq.
  unfold subject_defined, subject_get. rewrite Hcs. simpl.
  assert (Hdec : strict_eq (js_get cs T) JUndefined = true ↔
                 js_get cs T = JUndefined) by apply strict_eq_true.
  destruct (strict_eq (js_get cs T) JUndefined) eqn:E; simpl.
  - assert (Hu : js_get cs T = JUndefined) by (by apply Hdec).
    split; [|split; [|split]].
    + split; [done|]. by intros [].
    + done.
    + intros v Hv Hin. unfold js_get in Hu. rewrite Hv in Hu. subst v.
      apply list_elem_of_In in Hin. simpl in Hin.
      by destruct Hin as [?|[?|[?|[?|[]]]]].
    + done.
  - assert (Hd : js_get cs T ≠ JUndefined).
    { intros Hu. apply Hdec in Hu. discriminate Hu. }
    split; [|split; [|split]].
    + done.
    + split; [done|]. by intros ?.
    + done.
    + intros Hnone Hproto. destruct Hd. unfold js_get.
      by rewrite Hnone, Hproto.
Qed.

Lemma C4_presence_match_nonempty_witness :
  let cr := mk_request (Some "name") None None None None None in
  matches cr cred_alice = subject_defined cred_alice "name" ∧
  ∀ cs : JSObject, credentialSubject cred_alice = Some cs →
    (matches cr cred_alice = Ok true ↔ js_get cs "name" ≠ JUndefined) ∧
    (matches cr cred_alice = Ok false ↔ js_get cs "name" = JUndefined) ∧
    (∀ v, cs !! "name" = Some v →
          v ∈ [JStr ""; JNum 0; JNull; JBool false] →
          matches cr cred_alice = Ok true) ∧
    (cs !! "name" = None → object_prototype "name" = None →
     matches cr cred_alice = Ok false).
Proof.
  apply (C4_presence_match_nonempty
           (mk_request (Some "name") None None None None None)
           cred_alice "name");
    [reflexivity | reflexivity | discriminate | repeat split].
Defined.

(** The presence check follows the prototype chain: a request for the
    claim type [toString] (or [constructor]) accepts a credential whose
    [credentialSubject] is the empty object, while a request for [name]
    rejects it. *)
Example presence_check_sees_inherited_properties :
  matches (mk_request (Some "toString") None None None None None)
    cred_nameless = Ok true ∧
  matches (mk_request (Some "constructor") None None None None None)
    cred_nameless = Ok true ∧
  matches (mk_request (Some "name") None None None None None)
    cred_nameless = Ok false.
Proof. repeat split. Qed.

(** C4 as stated fails when the claim type asked for is the empty string:
    the request [{claimType: ""}] accepts a credential with an empty
    [credentialSubject], where [credentialSubject[""]] is [undefined]. *)
Lemma C4_empty_type_counterexample :
  let cr := mk_request (Some "") None None None None None in
  claimType cr = Some "" ∧ claimValue cr = None ∧
  no_other_constraints cr ∧
  credentialSubject cred_nameless = Some ∅ ∧
  ¬ (matches cr cred_nameless = Ok true ↔ js_get ∅ "" ≠ JUndefined).
Proof.
  repeat split. intros [H _]. by apply H.
Qed.

(** C10.  In the validator's predicate an empty string in [claimValue],
    [claimType], [credentialType] or [credentialContext] is the same as
    leaving that property unset, whatever the other properties and the
    credential are.  In particular [{claimType: T, claimValue: ""}] is the
    presence check of [T]: a credential whose entry [T] is defined matches,
    whether or not that entry equals [""]. *)
Theorem C10_empty_string_is_unset
    (T V : option string) (iss : option (list Issuer))
    (cty cctx : option string) (ess : option bool)
    (credential : VerifiableCredential) :
  matches (mk_request T (Some "") iss cty cctx ess) credential =
    matches (mk_request T None iss cty cctx ess) credential ∧
  matches (mk_request (Some "") V iss cty cctx ess) credential =
    matches (mk_request None V iss cty cctx ess) credential ∧
  matches (mk_request T V iss (Some "") cctx ess) credential =
    matches (mk_request T V iss None cctx ess) credential ∧
  matches (mk_request T V iss cty (Some "") ess) credential =
    matches (mk_request T V iss cty None ess) credential ∧
  matches (mk_request (Some "") V None (Some "") (Some "") ess) credential =
    Ok true ∧
  ∀ (T' : string) (cs : JSObject),
    T' ≠ "" → credentialSubject credential = Some cs →
    js_get cs T' ≠ JUndefined →
    matches (mk_request (Some T') (Some "") None None None ess) credential =
      Ok true.
Proof.
  repeat split; try reflexivity.
  intros T' cs HT' Hcs Hdef.
  rewrite (matches_type_only _ _ T').
  -  unfold subject_defined, subject_get. rewrite Hcs. simpl.
    apply strict_eq_false in Hdef. by rewrite Hdef.
  - simpl. by apply truthy_nonempty.
  - reflexivity.
  - by repeat split.
Qed.

(** ** The predicate never throws on a well-typed credential *)

Lemma is_Ok_Ok {A} (a : A) : is_Ok (Ok a).
Proof. by exists a. Qed.

Lemma not_is_Ok_Throw {A} (e : JsError) : ¬ is_Ok (@Throw A e).
Proof. by intros [a Ha]. Qed.

Lemma matches_true_inv cr credential :
  matches cr credential = Ok true ↔
  mismatch_value cr credential = Ok false ∧
  mismatch_presence cr credential = Ok false ∧
  mismatch_issuer cr credential = Ok false ∧
  mismatch_context cr credential = Ok false ∧
  mismatch_type cr credential = Ok false.
Proof.
  unfold matches.
  destruct (mismatch_value cr credential) as [[]|]; simpl;
    [refute_iff| |refute_iff].
  destruct (mismatch_presence cr credential) as [[]|]; simpl;
    [refute_iff| |refute_iff].
  destruct (mismatch_issuer cr credential) as [[]|]; simpl;
    [refute_iff| |refute_iff].
  destruct (mismatch_context cr credential) as [[]|]; simpl;
    [refute_iff| |refute_iff].
  destruct (mismatch_type cr credential) as [[]|]; simpl;
    [refute_iff| |refute_iff].
  done.
Qed.

Lemma matches_well_typed cr credential :
  well_typed_credential credential → is_Ok (matches cr credential).
Proof.
  intros ([cs Hcs] & [i Hi] & [ctx Hctx] & [ty Hty]).
  unfold matches, mismatch_value, mismatch_presence, mismatch_issuer,
    mismatch_context, mismatch_type, subject_get, issuer_id, seq_includes.
  rewrite Hcs, Hi, Hctx, Hty.
  destruct (truthy (claimType cr)), (truthy (claimValue cr)); simpl;
    repeat (match goal with
            | |- context [if ?b then _ else _] => destruct b; simpl
            | |- context [match ?o with Some _ => _ | None => _ end] =>
                destruct o; simpl
            end);
    apply is_Ok_Ok.
Qed.

(** On a list whose elements the callback accepts or rejects without
    throwing, [filterM] is the ordinary filter. *)
Lemma filterM_pure {A} (p : A → result bool) (q : A → bool) (xs : list A) :
  Forall (λ x, p x = Ok (q x)) xs →
  filterM p xs = Ok (List.filter q xs).
Proof.
  induction 1 as [|x xs Hx _ IH]; simpl; [done|].
  rewrite Hx, IH. simpl. by destruct (q x).
Qed.

Lemma filterM_ok {A} (p : A → result bool) (xs : list A) :
  Forall (λ x, is_Ok (p x)) xs → is_Ok (filterM p xs).
Proof.
  induction 1 as [|x xs [b Hb] _ [rest IH]]; simpl; [apply is_Ok_Ok|].
  rewrite Hb, IH. apply is_Ok_Ok.
Qed.

(** What [filterM] keeps is a sub-list of its input on which the callback
    answered [true]. *)
Lemma filterM_sound {A} (p : A → result bool) (xs kept : list A) :
  filterM p xs = Ok kept →
  sublist kept xs ∧ Forall (λ x, p x = Ok true) kept.
Proof.
  revert kept. induction xs as [|x xs IH]; simpl; intros kept.
  - intros [= <-]. split; constructor.
  - destruct (p x) as [b|] eqn:Hp; simpl; [|done].
    destruct (filterM p xs) as [rest|]; simpl; [|done].
    destruct (IH rest eq_refl) as [Hsub Hall].
    destruct b; intros [= <-].
    + split; [by constructor|by constructor].
    + split; [by constructor|done].
Qed.

(** ** The validator loop *)

Lemma unsatisfied_essentialb_spec e :
  unsatisfied_essentialb e = true ↔ unsatisfied_essential e.
Proof.
  unfold unsatisfied_essentialb, unsatisfied_essential.
  rewrite andb_true_iff, bool_decide_eq_true, Nat.eqb_eq.
  by rewrite length_zero_iff_nil.
Qed.

Lemma validate_loop_spec presentation crs valid0 claims0 valid1 claims1 :
  validate_loop presentation crs (valid0, claims0) = Ok (valid1, claims1) →
  ∃ new,
    claims1 = claims0 ++ new ∧
    Forall2 (entry_for presentation) crs new ∧
    valid1 = valid0 && forallb (λ e, negb (unsatisfied_essentialb e)) new.
Proof.
  revert valid0 claims0.
  induction crs as [|cr crs IH]; simpl; intros valid0 claims0.
  - intros [= <- <-]. exists []. rewrite app_nil_r, andb_true_r.
    repeat split. constructor.
  - destruct (filterM (matches cr) (verifiableCredential presentation))
      as [creds|] eqn:Hf; simpl; [|done].
    intros Hloop. apply IH in Hloop as (new & -> & Hall & ->).
    exists ({| request := cr; credentials := creds |} :: new).
    split; [by rewrite <- app_assoc|].
    split; [by constructor|]. simpl.
    unfold unsatisfied_essentialb at 2. simpl.
    destruct (bool_decide (essential cr = Some true) && (length creds =? 0)%nat);
      simpl; [|done].
    by rewrite andb_false_r.
Qed.

Lemma validate_loop_ok presentation crs st :
  Forall well_typed_credential (verifiableCredential presentation) →
  is_Ok (validate_loop presentation crs st).
Proof.
  intros Hwt. revert st.
  induction crs as [|cr crs IH]; simpl; intros [valid0 claims0].
  - apply is_Ok_Ok.
  - destruct (filterM_ok (matches cr) (verifiableCredential presentation))
      as [creds Hcreds].
    { eapply Forall_impl; [exact Hwt|]. intros c Hc. by apply matches_well_typed. }
    simpl. rewrite Hcreds. simpl. apply IH.
Qed.

Lemma validate_spec sdr presentation r :
  validatePresentationAgainstSdr sdr presentation = Ok r →
  Forall2 (entry_for presentation) (claims sdr) (result_claims r) ∧
  valid r = forallb (λ e, negb (unsatisfied_essentialb e)) (result_claims r).
Proof.
  unfold validatePresentationAgainstSdr.
  destruct (validate_loop presentation (claims sdr) (true, []))
    as [[valid1 claims1]|] eqn:Hloop; simpl; [|done].
  intros [= <-]. simpl.
  apply validate_loop_spec in Hloop as (new & -> & Hall & ->). done.
Qed.

(** C2 (as amended).  On a presentation whose credentials all carry
    [credentialSubject], [issuer], ['@context'] and [type], as the
    [VerifiableCredential] interface declares them, the validator settles
    with a structured result for every request: it never throws. *)
Theorem C2_validator_total_on_well_typed sdr presentation :
  Forall well_typed_credential (verifiableCredential presentation) →
  is_Ok (validatePresentationAgainstSdr sdr presentation).
Proof.
  intros Hwt. unfold validatePresentationAgainstSdr.
  destruct (validate_loop_ok presentation (claims sdr) (true, []) Hwt)
    as [[valid1 claims1] Hloop].
  rewrite Hloop. apply is_Ok_Ok.
Qed.

Lemma C2_validator_total_on_well_typed_witness :
  is_Ok (validatePresentationAgainstSdr sdr_context
           {| verifiableCredential := [cred_alice; cred_nameless] |}).
Proof.
  apply (C2_validator_total_on_well_typed sdr_context
           {| verifiableCredential := [cred_alice; cred_nameless] |}).
  repeat constructor; simpl; eauto.
Defined.

(** C2 as stated fails: a credential without ['@context'] (or without
    [type]) is not read as an empty sequence.  A request with
    [credentialContext] (or [credentialType]) set makes the validator
    throw a [TypeError] on it instead of returning a result. *)
Lemma C2_missing_field_counterexample :
  validatePresentationAgainstSdr sdr_context
    {| verifiableCredential := [cred_no_context] |} = Throw TypeError ∧
  validatePresentationAgainstSdr sdr_type
    {| verifiableCredential := [cred_no_type] |} = Throw TypeError ∧
  ¬ is_Ok (validatePresentationAgainstSdr sdr_context
             {| verifiableCredential := [cred_no_context] |}).
Proof.
  split; [reflexivity|]. split; [reflexivity|].
  apply not_is_Ok_Throw.
Qed.

(** C5.  In a result of the validator, [valid] is [false] exactly when
    some entry of [claims] belongs to an essential request and holds no
    credential; when no entry without credentials is essential, [valid]
    is [true]. *)
Theorem C5_valid_iff_no_unsatisfied_essential sdr presentation r :
  validatePresentationAgainstSdr sdr presentation = Ok r →
  (valid r = false ↔ Exists unsatisfied_essential (result_claims r)) ∧
  (Forall (λ e, credentials e = [] → essential (request e) ≠ Some true)
     (result_claims r) → valid r = true).
Proof.
  intros Hr. apply validate_spec in Hr as [_ Hvalid].
  rewrite Hvalid. clear Hvalid. split.
  - induction (result_claims r) as [|e es IH]; simpl.
    + split; [done|]. by intros ?%Exists_nil.
    + rewrite Exists_cons, andb_false_iff, IH, negb_false_iff.
      by rewrite unsatisfied_essentialb_spec.
  - induction 1 as [|e es He _ IH]; simpl; [done|].
    rewrite IH, andb_true_r, negb_true_iff.
    destruct (unsatisfied_essentialb e) eqn:E; [|done].
    apply unsatisfied_essentialb_spec in E as [Hess Hnil]. by destruct He.
Qed.

Lemma C5_valid_iff_no_unsatisfied_essential_witness :
  let r := {| valid := false;
              result_claims :=
                [{| request := claim_name_essential; credentials := [] |};
                 {| request := mk_request (Some "name") None None None None None;
                    credentials := [] |}] |} in
  (valid r = false ↔ Exists unsatisfied_essential (result_claims r)) ∧
  (Forall (λ e, credentials e = [] → essential (request e) ≠ Some true)
     (result_claims r) → valid r = true).
Proof.
  apply (C5_valid_iff_no_unsatisfied_essential sdr_name_twice
           {| verifiableCredential := [cred_nameless] |}).
  reflexivity.
Defined.

(** C6.  In a result of the validator, [claims] has the length of the
    request's [claims], and its [i]-th entry carries the properties of
    the [i]-th request (repeated claim types included), next to the
    credentials kept for that request. *)
Theorem C6_claims_mirror_manifest sdr presentation r :
  validatePresentationAgainstSdr sdr presentation = Ok r →
  length (result_claims r) = length (claims sdr) ∧
  map request (result_claims r) = claims sdr ∧
  ∀ i cr, claims sdr !! i = Some cr →
    ∃ e, result_claims r !! i = Some e ∧ request e = cr ∧
         filterM (matches cr) (verifiableCredential presentation)
           = Ok (credentials e).
Proof.
  intros Hr. apply validate_spec in Hr as [Hall _].
  split; [by apply Forall2_length in Hall|]. split.
  - induction Hall as [|cr e crs es [He _] _ IH]; simpl; [done|].
    by rewrite He, IH.
  - intros i cr Hi.
    destruct (Forall2_lookup_l _ _ _ _ _ Hall Hi) as (e & He & Hreq & Hf).
    by exists e.
Qed.

Lemma C6_claims_mirror_manifest_witness :
  let r := {| valid := true;
              result_claims :=
                [{| request := claim_name_essential;
                    credentials := [cred_alice] |};
                 {| request := mk_request (Some "name") None None None None None;
                    credentials := [cred_alice] |}] |} in
  let presentation := {| verifiableCredential := [cred_nameless; cred_alice] |} in
  length (result_claims r) = length (claims sdr_name_twice) ∧
  map request (result_claims r) = claims sdr_name_twice ∧
  ∀ i cr, claims sdr_name_twice !! i = Some cr →
    ∃ e, result_claims r !! i = Some e ∧ request e = cr ∧
         filterM (matches cr) (verifiableCredential presentation)
           = Ok (credentials e).
Proof.
  apply (C6_claims_mirror_manifest sdr_name_twice
           {| verifiableCredential := [cred_nameless; cred_alice] |}).
  reflexivity.
Defined.

(** ** The scenarios of the protocol description *)

(** An essential claim on [name] against a credential that has one: the
    presentation is valid and the credential is returned for the claim. *)
Example scenario_name_present :
  validatePresentationAgainstSdr sdr_name
    {| verifiableCredential := [cred_alice] |} =
  Ok {| valid := true;
        result_claims := [{| request := claim_name_essential;
                             credentials := [cred_alice] |}] |}.
Proof. reflexivity. Qed.

(** The same claim against a credential without [name]: invalid, and no
    credential for the claim. *)
Example scenario_name_missing :
  validatePresentationAgainstSdr sdr_name
    {| verifiableCredential := [cred_nameless] |} =
  Ok {| valid := false;
        result_claims := [{| request := claim_name_essential;
                             credentials := [] |}] |}.
Proof. reflexivity. Qed.

(** A claim restricted to the issuer [did:a] filters out a credential
    issued by [did:b], whatever else it holds. *)
Example scenario_other_issuer subj ctx ty (T V cty cctx : option string) ess :
  matches (mk_request T V (Some [{| did := "did:a" |}]) cty cctx ess)
    (mk_credential subj "did:b" ctx ty) ≠ Ok true.
Proof.
  intros Hm. apply matches_true_inv in Hm as (_ & _ & Hiss & _). done.
Qed.

(** ** The gatherer: what the store is asked *)

Lemma push_if_app {A} (c : option A) (item : A → Where) (w : list Where) :
  push_if c item w = w ++ push_if c item [].
Proof. destruct c; simpl; [done|]. by rewrite app_nil_r. Qed.

(** An iteration only appends to [findArgs.where]: what was pushed by the
    iterations before it stays in front. *)
Lemma push_filters_app args_did sdr cr (w : list Where) :
  push_filters args_did sdr cr w = w ++ own_filters args_did sdr cr.
Proof.
  unfold own_filters, push_filters.
  repeat (rewrite (push_if_app _ _ (push_if _ _ _)); symmetry;
          rewrite (push_if_app _ _ (push_if _ _ _)); symmetry).
  rewrite (push_if_app _ _ w), (push_if_app _ _ []).
  simpl. by rewrite <- !app_assoc.
Qed.

Lemma expected_queries_length args_did sdr crs w :
  length (expected_queries args_did sdr crs w) = length crs.
Proof.
  revert w. induction crs as [|cr crs IH]; simpl; intros w; [done|].
  by rewrite IH.
Qed.

(** The [i]-th query carries what was already in [where], then the
    filters of every request up to and including the [i]-th. *)
Lemma expected_queries_lookup args_did sdr crs w i q :
  expected_queries args_did sdr crs w !! i = Some q →
  where_ q = w ++ concat (map (own_filters args_did sdr) (take (S i) crs)).
Proof.
  revert w i. induction crs as [|cr crs IH]; simpl; intros w i; [done|].
  destruct i as [|i]; simpl.
  - intros [= <-]. simpl.
    by rewrite app_nil_r, push_filters_app.
  - intros Hq. apply IH in Hq. rewrite Hq, push_filters_app.
    by rewrite <- app_assoc.
Qed.

Lemma gather_loop_queries store args_did sdr crs st st' res :
  gather_loop store args_did sdr crs st = (st', res) →
  ∃ k, g_queries st' =
         g_queries st ++ take k (expected_queries args_did sdr crs (g_where st))
       ∧ (is_Ok res → k = length crs).
Proof.
  revert st. induction crs as [|cr crs IH]; simpl; intros st.
  - intros [= <- <-]. exists 0. by rewrite app_nil_r.
  - unfold gather_step.
    destruct (store _) as [creds|e]; simpl.
    + intros Hloop. apply IH in Hloop as (k & Hq & Hk). simpl in *.
      exists (S k). split; [|by intros ?; f_equal; apply Hk].
      rewrite Hq. unfold push. by rewrite <- app_assoc.
    + intros [= <- <-]. exists 1. simpl. rewrite take_0.
      split; [done|]. by intros ?%not_is_Ok_Throw.
Qed.

(** Every query the store receives is the expected one at its position. *)
Lemma gather_queries store sdr args_did i q :
  (getVerifiableCredentialsForSdr store sdr args_did).1 !! i = Some q →
  where_ q = concat (map (own_filters args_did sdr) (take (S i) (claims sdr))).
Proof.
  unfold getVerifiableCredentialsForSdr.
  destruct (gather_loop _ _ _ _ _) as [st res] eqn:Hloop.
  apply gather_loop_queries in Hloop as (k & Hq & _). simpl in Hq.
  intros Hi.
  assert (Hi' : g_queries st !! i = Some q) by (by destruct res).
  rewrite Hq in Hi'. apply lookup_take_Some in Hi' as [Hi' _].
  by apply expected_queries_lookup in Hi'.
Qed.

Lemma gather_loop_total store args_did sdr crs st :
  (∀ q, is_Ok (store q)) →
  g_queries (gather_loop store args_did sdr crs st).1 =
    g_queries st ++ expected_queries args_did sdr crs (g_where st)
  ∧ is_Ok (gather_loop store args_did sdr crs st).2.
Proof.
  intros Hstore. revert st.
  induction crs as [|cr crs IH]; simpl; intros st.
  - rewrite app_nil_r. split; [done|apply is_Ok_Ok].
  - unfold gather_step.
    destruct (Hstore {| where_ := push_filters args_did sdr cr (g_where st) |})
      as [creds ->].
    match goal with
    | |- context [gather_loop _ _ _ _ ?st'] => destruct (IH st') as [Hq Hok]
    end.
    split; [|done]. rewrite Hq. simpl. unfold push. by rewrite <- app_assoc.
Qed.

(** With a store that answers every query, there is one query per
    request and the promise is fulfilled. *)
Lemma gather_queries_total store sdr args_did :
  (∀ q, is_Ok (store q)) →
  (getVerifiableCredentialsForSdr store sdr args_did).1 =
    expected_queries args_did sdr (claims sdr) [] ∧
  is_Ok (getVerifiableCredentialsForSdr store sdr args_did).2.
Proof.
  intros Hstore. unfold getVerifiableCredentialsForSdr.
  destruct (gather_loop_total store args_did sdr (claims sdr)
              {| g_where := []; g_result := []; g_queries := [] |} Hstore)
    as [Hq [u Hok]].
  destruct (gather_loop _ _ _ _ _) as [st res]. simpl in *. subst res.
  split; [done|apply is_Ok_Ok].
Qed.

Lemma elem_of_push_if_old {A} (c : option A) item (w : list Where) x :
  x ∈ w → x ∈ push_if c item w.
Proof.
  intros Hx. destruct c; simpl; [|done]. unfold push. set_solver.
Qed.

Lemma elem_of_push_if_new {A} (c : option A) item (w : list Where) a :
  c = Some a → item a ∈ push_if c item w.
Proof. intros ->. simpl. unfold push. set_solver. Qed.

Lemma like_type_in_own_filters args_did sdr cr t :
  truthy (credentialType cr) = Some t →
  like_item "credentialType" t ∈ own_filters args_did sdr cr.
Proof.
  intros Ht. unfold own_filters, push_filters.
  do 2 apply elem_of_push_if_old.
  by apply (elem_of_push_if_new _ (λ t, like_item "credentialType" t)).
Qed.

Lemma like_context_in_own_filters args_did sdr cr c :
  truthy (credentialContext cr) = Some c →
  like_item "context" c ∈ own_filters args_did sdr cr.
Proof.
  intros Hc. unfold own_filters, push_filters.
  apply elem_of_push_if_old.
  by apply (elem_of_push_if_new _ (λ c, like_item "context" c)).
Qed.

(** The filters of the [i]-th request are part of the [i]-th query. *)
Lemma own_filters_in_query store sdr args_did i cr q x :
  claims sdr !! i = Some cr →
  (getVerifiableCredentialsForSdr store sdr args_did).1 !! i = Some q →
  x ∈ own_filters args_did sdr cr → x ∈ where_ q.
Proof.
  intros Hcr Hq Hx. rewrite (gather_queries _ _ _ _ _ Hq).
  apply list_elem_of_In, in_concat. exists (own_filters args_did sdr cr).
  split; [|by apply list_elem_of_In]. apply in_map.
  apply list_elem_of_In, list_elem_of_lookup. exists i.
  rewrite lookup_take_lt; [done|lia].
Qed.

Lemma matches_requires_type cr credential t :
  truthy (credentialType cr) = Some t →
  matches cr credential = Ok true →
  ∃ l, type credential = Some l ∧ t ∈ l.
Proof.
  intros Ht Hm. apply matches_true_inv in Hm as (_ & _ & _ & _ & Hty).
  unfold mismatch_type, seq_includes in Hty. rewrite Ht in Hty.
  destruct (type credential) as [l|]; simpl in Hty; [|done].
  exists l. split; [done|]. apply includes_str.
  destruct (includes l (JStr t)); [done|]. simpl in Hty. congruence.
Qed.

Lemma matches_requires_context cr credential c :
  truthy (credentialContext cr) = Some c →
  matches cr credential = Ok true →
  ∃ l, context credential = Some l ∧ c ∈ l.
Proof.
  intros Hc Hm. apply matches_true_inv in Hm as (_ & _ & _ & Hctx & _).
  unfold mismatch_context, seq_includes in Hctx. rewrite Hc in Hctx.
  destruct (context credential) as [l|]; simpl in Hctx; [|done].
  exists l. split; [done|]. apply includes_str.
  destruct (includes l (JStr c)); [done|]. simpl in Hctx. congruence.
Qed.

(** The validator compares whole elements: a request for the type
    [Credential] rejects a credential whose only type is
    [VerifiableCredential], which the gatherer's pattern [%Credential%]
    is a sub-string pattern for. *)
Example validator_rejects_substring :
  matches (mk_request None None None (Some "Credential") None None)
    (mk_credential alice "did:x" [] ["VerifiableCredential"]) = Ok false ∧
  own_filters None sdr_type
    (mk_request None None None (Some "Credential") None None) =
    [{| column := "credentialType"; value := ["%Credential%"];
        op := Some "Like" |}].
Proof. split; reflexivity. Qed.

(** C1.  The code keeps one [findArgs.where] array for the whole loop:
    with the claims [{claimType: "name", claimValue: "Alice"}] and
    [{claimType: "email"}], the query sent for the second claim still
    carries the [type] and [value] filters of the first, whereas the
    filter built from the second claim alone is [type = email]. *)
Theorem C1_second_query_carries_first_claim :
  let queries :=
    (getVerifiableCredentialsForSdr empty_store sdr_name_email None).1 in
  let second := mk_request (Some "email") None None None None None in
  claims sdr_name_email !! 1 = Some second ∧
  queries =
    [ {| where_ := [eq_item "type" "name"; eq_item "value" "Alice"] |};
      {| where_ := [eq_item "type" "name"; eq_item "value" "Alice";
                    eq_item "type" "email"] |} ] ∧
  own_filters None sdr_name_email second = [eq_item "type" "email"] ∧
  queries !! 1 ≠ Some {| where_ := own_filters None sdr_name_email second |}.
Proof.
  split; [reflexivity|]. split; [reflexivity|]. split; [reflexivity|].
  intros H. vm_compute in H. discriminate H.
Qed.

(** C9 (as amended).  For a request whose [credentialType] (or
    [credentialContext]) is a non-empty string [t]: the query the
    gatherer sends for it holds a [Like] filter on the [credentialType]
    (or [context]) column with the pattern [%t%], while the validator
    accepts a credential only if its decoded [type] (or ['@context'])
    sequence has [t] itself as an element. *)
Theorem C9_like_filter_vs_exact_membership
    store args_did sdr i cr q credential (t : string) :
  t ≠ "" →
  claims sdr !! i = Some cr →
  (getVerifiableCredentialsForSdr store sdr args_did).1 !! i = Some q →
  (credentialType cr = Some t →
     like_item "credentialType" t ∈ where_ q ∧
     (matches cr credential = Ok true →
      ∃ l, type credential = Some l ∧ t ∈ l)) ∧
  (credentialContext cr = Some t →
     like_item "context" t ∈ where_ q ∧
     (matches cr credential = Ok true →
      ∃ l, context credential = Some l ∧ t ∈ l)).
Proof.
  intros Hne Hcr Hq. split; intros Ht.
  - assert (Htr : truthy (credentialType cr) = Some t)
      by (rewrite Ht; by apply truthy_nonempty).
    split.
    + eapply own_filters_in_query; [done..|].
      by apply like_type_in_own_filters.
    + by apply matches_requires_type.
  - assert (Htr : truthy (credentialContext cr) = Some t)
      by (rewrite Ht; by apply truthy_nonempty).
    split.
    + eapply own_filters_in_query; [done..|].
      by apply like_context_in_own_filters.
    + by apply matches_requires_context.
Qed.

Lemma C9_like_filter_vs_exact_membership_witness :
  let cr := mk_request None None None (Some "Profile") None None in
  let q := {| where_ := [like_item "credentialType" "Profile"] |} in
  (credentialType cr = Some "Profile" →
     like_item "credentialType" "Profile" ∈ where_ q ∧
     (matches cr cred_profile = Ok true →
      ∃ l, type cred_profile = Some l ∧ "Profile" ∈ l)) ∧
  (credentialContext cr = Some "Profile" →
     like_item "context" "Profile" ∈ where_ q ∧
     (matches cr cred_profile = Ok true →
      ∃ l, context cred_profile = Some l ∧ "Profile" ∈ l)).
Proof.
  apply (C9_like_filter_vs_exact_membership empty_store None sdr_type 0
           (mk_request None None None (Some "Profile") None None)
           {| where_ := [like_item "credentialType" "Profile"] |}
           cred_profile "Profile");
    [discriminate | reflexivity | reflexivity].
Defined.

(** C9 as stated fails when the string is empty: for
    [{credentialType: ""}] the gatherer pushes no filter at all and the
    validator accepts a credential whose [type] sequence is empty. *)
Lemma C9_empty_string_counterexample :
  let cr := mk_request None None None (Some "") None None in
  let sdr := {| subject := None; claims := [cr] |} in
  credentialType cr = Some "" ∧
  (getVerifiableCredentialsForSdr empty_store sdr None).1 =
    [{| where_ := [] |}] ∧
  type cred_alice = Some [] ∧
  matches cr cred_alice = Ok true ∧
  ¬ (matches cr cred_alice = Ok true →
     ∃ l, type cred_alice = Some l ∧ "" ∈ l).
Proof.
  repeat split. intros H. destruct H as (l & [= <-] & Hin); [reflexivity|].
  by apply not_elem_of_nil in Hin.
Qed.

(** ** The builder *)

(** The builder's three ways to settle. *)
Lemma createSelectiveDisclosureRequest_cases getId createJWT data :
  let out := createSelectiveDisclosureRequest getId createJWT data in
  let did_arg := js_get data "issuer" in
  (∃ e, getId did_arg = Throw e ∧
        out = {| data_after := data;
                 trace := [Call_identityManagerGetIdentity did_arg];
                 settled := Throw e |}) ∨
  (∃ identity, getId did_arg = Ok identity ∧
        List.find has_signing_key_type (keys identity) = None ∧
        data_after out = delete "issuer" data ∧
        (∀ payload options, Call_createJWT payload options ∉ trace out) ∧
        settled out = Throw (Error "Signing key not found")) ∨
  (∃ identity key, getId did_arg = Ok identity ∧
        List.find has_signing_key_type (keys identity) = Some key ∧
        let payload := delete "issuer" data ∪ {[ "type" := JStr "sdr" ]} in
        let options := {| signer_kid := kid key; alg := "ES256K-R";
                          jwt_issuer := identity_did identity |} in
        out = {| data_after := delete "issuer" data;
                 trace := [Call_identityManagerGetIdentity did_arg;
                           Call_Debug "daf:selective-disclosure:create-sdr"
                             "Signing SDR with" (identity_did identity);
                           Call_createJWT payload options];
                 settled := createJWT payload options |}).
Proof.
  simpl. unfold createSelectiveDisclosureRequest.
  destruct (getId (js_get data "issuer")) as [identity|e].
  - right.
    destruct (List.find has_signing_key_type (keys identity))
      as [key|] eqn:Hfind.
    + right. by exists identity, key.
    + left. exists identity. simpl.
      split; [done|]. split; [done|]. split; [done|]. split; [|done].
      intros payload options Hin.
      apply list_elem_of_In in Hin. simpl in Hin.
      by destruct Hin as [?|[?|[]]].
  - left. by exists e.
Qed.

(** C7 (as amended).  For a manifest whose [issuer] is set, whenever the
    builder calls [createJWT], the payload it hands over has no [issuer]
    property; its [type] is ["sdr"] when the manifest has no [type] of
    its own and the manifest's [type] otherwise; every other property of
    the manifest is there unchanged; the DID of the resolved identity is
    passed as the [issuer] option, with [alg = "ES256K-R"].  The call is
    made as soon as the identity resolves and owns a [Secp256k1] key. *)
Theorem C7_payload_has_no_issuer getId createJWT data (d : JSVal) :
  data !! "issuer" = Some d →
  let out := createSelectiveDisclosureRequest getId createJWT data in
  (∀ payload options, Call_createJWT payload options ∈ trace out →
     payload !! "issuer" = None ∧
     (data !! "type" = None → payload !! "type" = Some (JStr "sdr")) ∧
     (∀ v, data !! "type" = Some v → payload !! "type" = Some v) ∧
     (∀ k, k ≠ "issuer" → k ≠ "type" → payload !! k = data !! k) ∧
     ∃ identity, getId d = Ok identity ∧
       jwt_issuer options = identity_did identity ∧
       alg options = "ES256K-R" ∧
       settled out = createJWT payload options) ∧
  (∀ identity key, getId d = Ok identity →
     List.find has_signing_key_type (keys identity) = Some key →
     ∃ payload options, Call_createJWT payload options ∈ trace out).
Proof.
  intros Hd out.
  assert (Hget : js_get data "issuer" = d) by (unfold js_get; by rewrite Hd).
  pose proof (createSelectiveDisclosureRequest_cases getId createJWT data)
    as Hcases. simpl in Hcases. rewrite Hget in Hcases. fold out in Hcases.
  destruct Hcases as [(e & He & Hout) | [(identity & Hid & Hkey & _ & Hno & _)
    | (identity & key & Hid & Hkey & Hout)]].
  - split.
    + intros payload options Hin. rewrite Hout in Hin. simpl in Hin.
      apply list_elem_of_In in Hin. simpl in Hin. by destruct Hin as [?|[]].
    + intros identity key Hid. congruence.
  - split.
    + intros payload options Hin. by apply Hno in Hin.
    + intros identity' key Hid' Hkey'. congruence.
  - split.
    + intros payload options Hin. rewrite Hout in Hin. simpl in Hin.
      apply list_elem_of_In in Hin. simpl in Hin.
      destruct Hin as [?|[?|[[= <- <-]|[]]]]; [done..|].
      split; [|split; [|split; [|split]]].
      * apply lookup_union_None. split; [apply lookup_delete_eq|done].
      * intros Hty. apply lookup_union_Some_raw. right.
        split; [by rewrite lookup_delete_ne|done].
      * intros v Hty. apply lookup_union_Some_l. by rewrite lookup_delete_ne.
      * intros k Hk1 Hk2. rewrite lookup_union_l.
        -- by rewrite lookup_delete_ne.
        -- by rewrite lookup_singleton_ne.
      * exists identity. rewrite Hout. done.
    + intros _ _ _ _. rewrite Hout. simpl. eexists _, _.
      apply list_elem_of_In. simpl. right. right. left. reflexivity.
Qed.

Lemma C7_payload_has_no_issuer_witness :
  let out := createSelectiveDisclosureRequest resolver_z jwt_stub manifest_z in
  (∀ payload options, Call_createJWT payload options ∈ trace out →
     payload !! "issuer" = None ∧
     (manifest_z !! "type" = None → payload !! "type" = Some (JStr "sdr")) ∧
     (∀ v, manifest_z !! "type" = Some v → payload !! "type" = Some v) ∧
     (∀ k, k ≠ "issuer" → k ≠ "type" → payload !! k = manifest_z !! k) ∧
     ∃ identity, resolver_z (JStr "did:z") = Ok identity ∧
       jwt_issuer options = identity_did identity ∧
       alg options = "ES256K-R" ∧
       settled out = jwt_stub payload options) ∧
  (∀ identity key, resolver_z (JStr "did:z") = Ok identity →
     List.find has_signing_key_type (keys identity) = Some key →
     ∃ payload options, Call_createJWT payload options ∈ trace out).
Proof.
  apply (C7_payload_has_no_issuer resolver_z jwt_stub manifest_z
           (JStr "did:z")).
  reflexivity.
Defined.

(** C7 as stated fails for a manifest that has a [type] property of its
    own: with [{issuer: "did:z", type: "other"}] the payload handed to
    [createJWT] has no [issuer], but its [type] is ["other"], not
    ["sdr"]. *)
Lemma C7_manifest_type_counterexample :
  let out :=
    createSelectiveDisclosureRequest resolver_z jwt_stub manifest_typed in
  manifest_typed !! "issuer" = Some (JStr "did:z") ∧
  settled out = Ok "jwt" ∧
  ∃ payload options,
    Call_createJWT payload options ∈ trace out ∧
    payload !! "issuer" = None ∧
    payload !! "type" = Some (JStr "other") ∧
    payload !! "type" ≠ Some (JStr "sdr").
Proof.
  split; [reflexivity|]. split; [reflexivity|].
  exists (delete "issuer" manifest_typed ∪ {[ "type" := JStr "sdr" ]}),
    {| signer_kid := "key-1"; alg := "ES256K-R"; jwt_issuer := "did:z" |}.
  split.
  { apply list_elem_of_In. simpl. right. right. left. reflexivity. }
  split; [reflexivity|]. split; [reflexivity|].
  intros H. vm_compute in H. discriminate H.
Qed.

(** C8 (as amended).  The builder's only effect on the caller's manifest
    object is the removal of its [issuer] property: after the call the
    object is the original one without [issuer] when the identity lookup
    succeeded, and the original one when the lookup failed; no property
    is added and no other property is removed or changed. *)
Theorem C8_only_issuer_is_removed getId createJWT (data : JSObject) :
  let out := createSelectiveDisclosureRequest getId createJWT data in
  (is_Ok (getId (js_get data "issuer")) →
     data_after out = delete "issuer" data) ∧
  (¬ is_Ok (getId (js_get data "issuer")) → data_after out = data) ∧
  (∀ k, k ≠ "issuer" → data_after out !! k = data !! k) ∧
  (∀ k, is_Some (data_after out !! k) → is_Some (data !! k)).
Proof.
  intros out.
  pose proof (createSelectiveDisclosureRequest_cases getId createJWT data)
    as Hcases. simpl in Hcases. fold out in Hcases.
  assert (Hafter :
    (is_Ok (getId (js_get data "issuer")) ∧
       data_after out = delete "issuer" data) ∨
    (¬ is_Ok (getId (js_get data "issuer")) ∧ data_after out = data)).
  { destruct Hcases as [(e & He & ->) | [(identity & Hid & _ & Hout & _)
      | (identity & key & Hid & _ & ->)]].
    - right. rewrite He. split; [apply not_is_Ok_Throw|done].
    - left. rewrite Hid. split; [apply is_Ok_Ok|done].
    - left. rewrite Hid. split; [apply is_Ok_Ok|done]. }
  destruct Hafter as [[Hok ->] | [Hno ->]]; repeat split; try done.
  - intros k Hk. by rewrite lookup_delete_ne.
  - intros k. rewrite lookup_delete_is_Some. by intros [_ ?].
Qed.

(** C8 as stated fails: on Scenario D's manifest the call that signs the
    request leaves the caller's object without its [issuer]. *)
Lemma C8_manifest_mutated_counterexample :
  let out := createSelectiveDisclosureRequest resolver_z jwt_stub manifest_z in
  settled out = Ok "jwt" ∧
  manifest_z !! "issuer" = Some (JStr "did:z") ∧
  data_after out !! "issuer" = None ∧
  data_after out ≠ manifest_z.
Proof.
  repeat split. intros Heq.
  assert (H : data_after
                (createSelectiveDisclosureRequest resolver_z jwt_stub manifest_z)
                !! "issuer" = manifest_z !! "issuer") by (by rewrite Heq).
  vm_compute in H. discriminate.
Qed.

(** * Further properties of the validator *)

Lemma filterM_elem {A} (p : A → result bool) (xs kept : list A) (x : A) :
  filterM p xs = Ok kept →
  (x ∈ kept ↔ x ∈ xs ∧ p x = Ok true).
Proof.
  revert kept. induction xs as [|y xs IH]; simpl; intros kept.
  - intros [= <-]. split; [by intros ?%not_elem_of_nil|].
    by intros [?%not_elem_of_nil _].
  - destruct (p y) as [b|] eqn:Hp; simpl; [|done].
    destruct (filterM p xs) as [rest|]; simpl; [|done].
    specialize (IH rest eq_refl).
    destruct b; intros [= <-].
    + rewrite !elem_of_cons, IH. split.
      * intros [->|[? ?]]; [by split; [left|]|by split; [right|]].
      * intros [[->|?] ?]; [by left|by right].
    + rewrite elem_of_cons, IH. split.
      * intros [? ?]. by split; [right|].
      * intros [[->|?] ?]; [congruence|done].
Qed.

Lemma filterM_app {A} (p : A → result bool) (xs ys : list A) :
  filterM p (xs ++ ys) =
    (a ← filterM p xs; b ← filterM p ys; Ok (a ++ b)).
Proof.
  induction xs as [|x xs IH]; simpl.
  - by destruct (filterM p ys).
  - destruct (p x) as [b|]; simpl; [|done]. rewrite IH.
    destruct (filterM p xs) as [a|]; simpl; [|done].
    destruct (filterM p ys) as [c|]; simpl; [|done].
    by destruct b.
Qed.

Lemma filterM_throw {A} (p : A → result bool) (xs : list A) err :
  filterM p xs = Throw err → ∃ x, x ∈ xs ∧ p x = Throw err.
Proof.
  induction xs as [|x xs IH]; simpl; [done|].
  destruct (p x) as [b|e] eqn:Hp; simpl.
  - destruct (filterM p xs) as [rest|e]; simpl; [done|].
    intros [= ->]. destruct IH as (y & Hy & Hpy); [done|].
    exists y. split; [by right|done].
  - intros [= ->]. exists x. split; [by left|done].
Qed.

Lemma filterM_nil_ok {A} (p : A → result bool) : filterM p [] = Ok [].
Proof. reflexivity. Qed.

(** The predicate's only exception is the [TypeError] of a read on a
    missing property. *)
Lemma matches_throw cr credential err :
  matches cr credential = Throw err → err = TypeError.
Proof.
  unfold matches, mismatch_value, mismatch_presence, mismatch_issuer,
    mismatch_context, mismatch_type, subject_get, issuer_id, seq_includes.
  destruct (credentialSubject credential), (issuer credential),
    (context credential), (type credential),
    (truthy (claimType cr)), (truthy (claimValue cr)), (issuers cr),
    (truthy (credentialContext cr)), (truthy (credentialType cr)); simpl;
    repeat (match goal with
            | |- context [if ?b then _ else _] => destruct b; simpl
            end);
    congruence.
Qed.

Lemma matches_reads_present cr credential :
  reads_present cr credential → is_Ok (matches cr credential).
Proof.
  intros (Hs & Hi & Hc & Ht).
  unfold matches, mismatch_value, mismatch_presence, mismatch_issuer,
    mismatch_context, mismatch_type, subject_get, issuer_id, seq_includes.
  destruct (truthy (claimType cr)) as [T|].
  - destruct Hs as [cs ->]; [by eexists|].
    destruct (truthy (claimValue cr)), (issuers cr) as [iss|],
      (truthy (credentialContext cr)) as [cc|],
      (truthy (credentialType cr)) as [ct|]; simpl;
      try (destruct Hi as [i ->]; [by eexists|]);
      try (destruct Hc as [ctx ->]; [by eexists|]);
      try (destruct Ht as [ty ->]; [by eexists|]); simpl;
      repeat (match goal with
              | |- context [if ?b then _ else _] => destruct b; simpl
              end);
      apply is_Ok_Ok.
  - destruct (truthy (claimValue cr)), (issuers cr) as [iss|],
      (truthy (credentialContext cr)) as [cc|],
      (truthy (credentialType cr)) as [ct|]; simpl;
      try (destruct Hi as [i ->]; [by eexists|]);
      try (destruct Hc as [ctx ->]; [by eexists|]);
      try (destruct Ht as [ty ->]; [by eexists|]); simpl;
      repeat (match goal with
              | |- context [if ?b then _ else _] => destruct b; simpl
              end);
      apply is_Ok_Ok.
Qed.

(** The loop settles with a result exactly when the filter of every
    request does, and its exception is the first filter's that throws. *)
Lemma validate_loop_ok_iff presentation crs st :
  is_Ok (validate_loop presentation crs st) ↔
  Forall (λ cr, is_Ok (filterM (matches cr)
                         (verifiableCredential presentation))) crs.
Proof.
  revert st. induction crs as [|cr crs IH]; intros [valid0 claims0]; simpl.
  - split; [constructor|intros _; apply is_Ok_Ok].
  - rewrite Forall_cons.
    destruct (filterM (matches cr) (verifiableCredential presentation))
      as [creds|e]; simpl.
    + rewrite IH. split; [intros ?; split; [apply is_Ok_Ok|done]|by intros [_ ?]].
    + split; [by intros ?%not_is_Ok_Throw|by intros [?%not_is_Ok_Throw _]].
Qed.

Lemma validate_loop_throw presentation crs st err :
  validate_loop presentation crs st = Throw err →
  ∃ cr, cr ∈ crs ∧
    filterM (matches cr) (verifiableCredential presentation) = Throw err.
Proof.
  revert st. induction crs as [|cr crs IH]; intros [valid0 claims0]; simpl;
    [done|].
  destruct (filterM (matches cr) (verifiableCredential presentation))
    as [creds|e] eqn:Hf; simpl.
  - intros Hloop. apply IH in Hloop as (cr' & Hin & Hthrow).
    exists cr'. split; [by right|done].
  - intros [= ->]. exists cr. split; [by left|done].
Qed.

Lemma validate_ok_iff sdr presentation :
  is_Ok (validatePresentationAgainstSdr sdr presentation) ↔
  Forall (λ cr, is_Ok (filterM (matches cr)
                         (verifiableCredential presentation))) (claims sdr).
Proof.
  rewrite <- (validate_loop_ok_iff presentation (claims sdr) (true, [])).
  unfold validatePresentationAgainstSdr.
  destruct (validate_loop presentation (claims sdr) (true, []))
    as [[valid1 claims1]|e]; simpl.
  - split; intros _; apply is_Ok_Ok.
  - split; by intros ?%not_is_Ok_Throw.
Qed.

(** X1.  In a result of the validator, the credentials listed for a
    request are presented credentials, in the order of the presentation,
    and they are exactly those the predicate accepts for that request:
    nothing is listed that was not presented, and no accepted credential
    is left out. *)
Theorem validator_lists_exactly_the_accepted sdr presentation r e c :
  validatePresentationAgainstSdr sdr presentation = Ok r →
  e ∈ result_claims r →
  sublist (credentials e) (verifiableCredential presentation) ∧
  (c ∈ credentials e ↔
   c ∈ verifiableCredential presentation ∧ matches (request e) c = Ok true).
Proof.
  intros Hr He. apply validate_spec in Hr as [Hall _].
  apply list_elem_of_lookup in He as [i Hi].
  destruct (Forall2_lookup_r _ _ _ _ _ Hall Hi) as (cr & _ & <- & Hf).
  split.
  - by apply filterM_sound in Hf as [? _].
  - by apply filterM_elem.
Qed.

Lemma validator_lists_exactly_the_accepted_witness :
  let e := {| request := claim_name_essential; credentials := [cred_alice] |} in
  let presentation := {| verifiableCredential := [cred_nameless; cred_alice] |} in
  sublist (credentials e) (verifiableCredential presentation) ∧
  (cred_nameless ∈ credentials e ↔
   cred_nameless ∈ verifiableCredential presentation ∧
   matches (request e) cred_nameless = Ok true).
Proof.
  apply (validator_lists_exactly_the_accepted sdr_name
           {| verifiableCredential := [cred_nameless; cred_alice] |}
           {| valid := true;
              result_claims := [{| request := claim_name_essential;
                                   credentials := [cred_alice] |}] |});
    [reflexivity | apply list_elem_of_In; simpl; left; reflexivity].
Defined.

Lemma validate_valid_true_iff sdr presentation r :
  validatePresentationAgainstSdr sdr presentation = Ok r →
  (valid r = true ↔
   ∀ cr, cr ∈ claims sdr → essential cr = Some true →
     ∃ c, c ∈ verifiableCredential presentation ∧ matches cr c = Ok true).
Proof.
  intros Hr. apply validate_spec in Hr as [Hall ->].
  induction Hall as [|cr e crs es [Hreq Hf] _ IH]; simpl.
  - split; [|done]. by intros _ cr ?%not_elem_of_nil.
  - rewrite andb_true_iff, IH, negb_true_iff. clear IH.
    assert (Hentry : unsatisfied_essentialb e = false ↔
      (essential cr = Some true →
       ∃ c, c ∈ verifiableCredential presentation ∧ matches cr c = Ok true)).
    { rewrite <- not_true_iff_false, unsatisfied_essentialb_spec.
      unfold unsatisfied_essential. rewrite Hreq. split.
      - intros Hno Hess. destruct (credentials e) as [|c cs] eqn:Hcs.
        + by destruct Hno.
        + exists c. apply (filterM_elem _ _ _ c Hf). by left.
      - intros Hex [Hess Hnil]. destruct (Hex Hess) as (c & Hc & Hm).
        assert (Hin : c ∈ credentials e) by (by apply (filterM_elem _ _ _ c Hf)).
        rewrite Hnil in Hin. by apply not_elem_of_nil in Hin. }
    rewrite Hentry. split.
    + intros [Hhd Htl] cr' [->|Hin]%elem_of_cons; [done|by apply Htl].
    + intros Hall'. split.
      * apply Hall'. by left.
      * intros cr' Hin. apply Hall'. by right.
Qed.

(** X2.  When the validator returns, [valid] is [true] exactly when every
    essential request of the manifest is matched by at least one
    presented credential. *)
Theorem valid_iff_every_essential_request_matched sdr presentation r :
  validatePresentationAgainstSdr sdr presentation = Ok r →
  (valid r = true ↔
   ∀ cr, cr ∈ claims sdr → essential cr = Some true →
     ∃ c, c ∈ verifiableCredential presentation ∧ matches cr c = Ok true).
Proof. apply validate_valid_true_iff. Qed.

Lemma valid_iff_every_essential_request_matched_witness :
  let presentation := {| verifiableCredential := [cred_nameless] |} in
  let r := {| valid := false;
              result_claims := [{| request := claim_name_essential;
                                   credentials := [] |}] |} in
  valid r = true ↔
  ∀ cr, cr ∈ claims sdr_name → essential cr = Some true →
    ∃ c, c ∈ verifiableCredential presentation ∧ matches cr c = Ok true.
Proof.
  apply (valid_iff_every_essential_request_matched sdr_name
           {| verifiableCredential := [cred_nameless] |}).
  reflexivity.
Defined.

(** X3.  The only way the validator fails is a [TypeError], and it is
    raised by the predicate on a presented credential for a request of
    the manifest. *)
Theorem validator_throws_only_TypeError sdr presentation err :
  validatePresentationAgainstSdr sdr presentation = Throw err →
  err = TypeError ∧
  ∃ cr c, cr ∈ claims sdr ∧ c ∈ verifiableCredential presentation ∧
          matches cr c = Throw TypeError.
Proof.
  unfold validatePresentationAgainstSdr.
  destruct (validate_loop presentation (claims sdr) (true, []))
    as [[valid1 claims1]|e] eqn:Hloop; simpl; [done|].
  intros [= ->].
  apply validate_loop_throw in Hloop as (cr & Hcr & Hf).
  apply filterM_throw in Hf as (c & Hc & Hm).
  pose proof (matches_throw _ _ _ Hm) as ->.
  split; [done|]. by exists cr, c.
Qed.

Lemma validator_throws_only_TypeError_witness :
  TypeError = TypeError ∧
  ∃ cr c, cr ∈ claims sdr_name ∧
          c ∈ verifiableCredential {| verifiableCredential := [cred_bare] |} ∧
          matches cr c = Throw TypeError.
Proof.
  apply (validator_throws_only_TypeError sdr_name
           {| verifiableCredential := [cred_bare] |} TypeError).
  reflexivity.
Defined.

(** X4.  The predicate reads a property of a credential only when the
    request constrains it: the validator returns a result as soon as each
    presented credential has the properties that the requests of the
    manifest actually use, whatever else it lacks. *)
Theorem validator_total_when_read_fields_present sdr presentation :
  (∀ cr c, cr ∈ claims sdr → c ∈ verifiableCredential presentation →
           reads_present cr c) →
  is_Ok (validatePresentationAgainstSdr sdr presentation).
Proof.
  intros Hreads. apply validate_ok_iff, Forall_forall. intros cr Hcr.
  apply filterM_ok, Forall_forall. intros c Hc.
  by apply matches_reads_present, Hreads.
Qed.

Lemma validator_total_when_read_fields_present_witness :
  is_Ok (validatePresentationAgainstSdr sdr_name
           {| verifiableCredential := [cred_subject_only] |}).
Proof.
  apply (validator_total_when_read_fields_present sdr_name
           {| verifiableCredential := [cred_subject_only] |}).
  intros cr c Hcr Hc.
  apply list_elem_of_In in Hcr. apply list_elem_of_In in Hc.
  simpl in Hcr, Hc.
  destruct Hcr as [<-|[]]. destruct Hc as [<-|[]].
  repeat split; simpl; intros [x Hx]; try discriminate Hx; by eexists.
Defined.

(** X5.  Appending credentials on which the validator itself does not
    throw never turns a valid presentation into an invalid one: the longer
    presentation validates too, every request keeps the credentials it
    had, followed by the accepted ones among the new, and [valid] stays
    [true]. *)
Theorem validator_more_credentials sdr (xs ys : list VerifiableCredential) r1 :
  validatePresentationAgainstSdr sdr {| verifiableCredential := xs |} = Ok r1 →
  is_Ok (validatePresentationAgainstSdr sdr {| verifiableCredential := ys |}) →
  ∃ r2,
    validatePresentationAgainstSdr sdr {| verifiableCredential := xs ++ ys |}
      = Ok r2 ∧
    (valid r1 = true → valid r2 = true) ∧
    ∀ i e1 e2, result_claims r1 !! i = Some e1 →
               result_claims r2 !! i = Some e2 →
      request e2 = request e1 ∧
      ∃ extra, filterM (matches (request e1)) ys = Ok extra ∧
               credentials e2 = credentials e1 ++ extra.
Proof.
  intros H1 Hys.
  assert (Hok : is_Ok (validatePresentationAgainstSdr sdr
                         {| verifiableCredential := xs ++ ys |})).
  { apply validate_ok_iff, Forall_forall. intros cr Hcr. simpl.
    assert (Hxs : is_Ok (validatePresentationAgainstSdr sdr
                           {| verifiableCredential := xs |}))
      by (by exists r1).
    apply validate_ok_iff in Hxs. apply validate_ok_iff in Hys.
    rewrite Forall_forall in Hxs, Hys.
    destruct (Hxs cr Hcr) as [a Ha]. destruct (Hys cr Hcr) as [b Hb].
    simpl in Ha, Hb. rewrite filterM_app, Ha, Hb. apply is_Ok_Ok. }
  destruct Hok as [r2 H2]. exists r2. split; [done|]. split.
  - rewrite (validate_valid_true_iff _ _ _ H1), (validate_valid_true_iff _ _ _ H2).
    simpl. intros Hall cr Hcr Hess.
    destruct (Hall cr Hcr Hess) as (c & Hc & Hm).
    exists c. split; [|done]. apply elem_of_app. by left.
  - apply validate_spec in H1 as [Hall1 _].
    apply validate_spec in H2 as [Hall2 _].
    intros i e1 e2 Hi1 Hi2.
    destruct (Forall2_lookup_r _ _ _ _ _ Hall1 Hi1) as (cr1 & Hcr1 & <- & Hf1).
    destruct (Forall2_lookup_r _ _ _ _ _ Hall2 Hi2) as (cr2 & Hcr2 & Hreq2 & Hf2).
    assert (cr2 = request e1) as -> by congruence.
    split; [done|]. simpl in Hf1, Hf2.
    rewrite filterM_app, Hf1 in Hf2. simpl in Hf2.
    destruct (filterM (matches (request e1)) ys) as [extra|]; simpl in Hf2;
      [|done].
    exists extra. split; [done|]. congruence.
Qed.

Lemma validator_more_credentials_witness :
  let r1 := {| valid := true;
               result_claims := [{| request := claim_name_essential;
                                    credentials := [cred_alice] |}] |} in
  ∃ r2,
    validatePresentationAgainstSdr sdr_name
      {| verifiableCredential := [cred_alice] ++ [cred_subject_only] |}
      = Ok r2 ∧
    (valid r1 = true → valid r2 = true) ∧
    ∀ i e1 e2, result_claims r1 !! i = Some e1 →
               result_claims r2 !! i = Some e2 →
      request e2 = request e1 ∧
      ∃ extra, filterM (matches (request e1)) [cred_subject_only] = Ok extra ∧
               credentials e2 = credentials e1 ++ extra.
Proof.
  apply (validator_more_credentials sdr_name [cred_alice] [cred_subject_only]);
    [reflexivity | eexists; reflexivity].
Defined.

Lemma validate_loop_empty crs valid0 claims0 :
  validate_loop {| verifiableCredential := [] |} crs (valid0, claims0) =
  Ok (valid0 && forallb (λ cr, negb (is_essential cr)) crs,
      claims0 ++ map (λ cr, {| request := cr; credentials := [] |}) crs).
Proof.
  revert valid0 claims0. induction crs as [|cr crs IH]; intros valid0 claims0;
    simpl.
  - by rewrite andb_true_r, app_nil_r.
  - rewrite IH. unfold is_essential. rewrite <- app_assoc. simpl.
    destruct (bool_decide (essential cr = Some true)); simpl; [|done].
    by rewrite andb_false_r.
Qed.

(** X6.  With no credential presented the validator never fails: every
    request of the manifest is reported with an empty list, in order, and
    the presentation is valid exactly when no request is essential. *)
Theorem validator_on_empty_presentation sdr :
  validatePresentationAgainstSdr sdr {| verifiableCredential := [] |} =
  Ok {| valid := forallb (λ cr, negb (is_essential cr)) (claims sdr);
        result_claims :=
          map (λ cr, {| request := cr; credentials := [] |}) (claims sdr) |}.
Proof.
  unfold validatePresentationAgainstSdr. by rewrite validate_loop_empty.
Qed.

(** X7.  A request accepts every credential whatsoever (even one with no
    property at all) exactly when its [claimType], [credentialContext] and
    [credentialType] are unset or empty and [issuers] is unset; its
    [claimValue] plays no part in that. *)
Theorem validator_accepts_all_iff_unconstrained cr :
  (∀ c, matches cr c = Ok true) ↔
  truthy (claimType cr) = None ∧ issuers cr = None ∧
  truthy (credentialContext cr) = None ∧ truthy (credentialType cr) = None.
Proof.
  split.
  - intros Hall. specialize (Hall cred_bare).
    apply matches_true_inv in Hall as (Hv & Hp & Hi & Hc & Ht).
    unfold mismatch_value, mismatch_presence in Hv, Hp.
    unfold mismatch_issuer in Hi. unfold mismatch_context in Hc.
    unfold mismatch_type in Ht.
    destruct (truthy (claimType cr)), (truthy (claimValue cr)),
      (issuers cr), (truthy (credentialContext cr)),
      (truthy (credentialType cr)); simpl in *; try discriminate; done.
  - intros (HT & Hi & Hc & Ht) c.
    unfold matches, mismatch_value, mismatch_presence, mismatch_issuer,
      mismatch_context, mismatch_type.
    by rewrite HT, Hi, Hc, Ht.
Qed.

(** X8.  A [claimValue] given without a [claimType] is used by the
    gatherer, whose filter for the request holds an equality on the
    [value] column, and ignored by the validator, which answers as if the
    value were not there. *)
Theorem claimValue_without_claimType args_did sdr cr (v : string) c :
  truthy (claimType cr) = None →
  truthy (claimValue cr) = Some v →
  eq_item "value" v ∈ own_filters args_did sdr cr ∧
  matches cr c =
    matches {| claimType := claimType cr; claimValue := None;
               issuers := issuers cr; credentialType := credentialType cr;
               credentialContext := credentialContext cr;
               essential := essential cr |} c.
Proof.
  intros HT HV. split.
  - unfold own_filters, push_filters.
    do 4 apply elem_of_push_if_old.
    by apply (elem_of_push_if_new _ (λ v, eq_item "value" v)).
  - unfold matches, mismatch_value, mismatch_presence, mismatch_issuer,
      mismatch_context, mismatch_type. simpl. by rewrite HT.
Qed.

Lemma claimValue_without_claimType_witness :
  let cr := mk_request None (Some "Alice") None None None None in
  eq_item "value" "Alice" ∈ own_filters None sdr_name cr ∧
  matches cr cred_nameless =
    matches {| claimType := claimType cr; claimValue := None;
               issuers := issuers cr; credentialType := credentialType cr;
               credentialContext := credentialContext cr;
               essential := essential cr |} cred_nameless.
Proof.
  apply (claimValue_without_claimType None sdr_name
           (mk_request None (Some "Alice") None None None None)
           "Alice" cred_nameless); reflexivity.
Defined.

(** X9.  When [issuers] is set, a credential is accepted only if its
    [issuer.id] is the [did] of one of the listed issuers; an empty
    [issuers] array therefore accepts no credential. *)
Theorem validator_issuer_constraint cr c (iss : list Issuer) :
  issuers cr = Some iss →
  (matches cr c = Ok true →
   ∃ i, i ∈ iss ∧ issuer c = Some {| id := JStr (did i) |}) ∧
  (iss = [] → matches cr c ≠ Ok true).
Proof.
  intros Hiss.
  assert (Hmain : matches cr c = Ok true →
    ∃ i, i ∈ iss ∧ issuer c = Some {| id := JStr (did i) |}).
  { intros Hm. apply matches_true_inv in Hm as (_ & _ & Hi & _).
    unfold mismatch_issuer, issuer_id in Hi. rewrite Hiss in Hi.
    destruct (issuer c) as [[v]|]; simpl in Hi; [|done].
    destruct (includes (map did iss) v) eqn:Hinc; simpl in Hi; [|done].
    unfold includes in Hinc. apply existsb_exists in Hinc as (d & Hd & Heq).
    apply strict_eq_true in Heq as <-.
    apply in_map_iff in Hd as (i & <- & Hin).
    exists i. split; [by apply list_elem_of_In|done]. }
  split; [done|].
  intros -> Hm. destruct (Hmain Hm) as (i & Hin & _).
  by apply not_elem_of_nil in Hin.
Qed.

Lemma validator_issuer_constraint_witness :
  let cr := mk_request None None (Some [{| did := "did:x" |}]) None None None in
  (matches cr cred_alice = Ok true →
   ∃ i, i ∈ [{| did := "did:x" |}] ∧
        issuer cred_alice = Some {| id := JStr (did i) |}) ∧
  ([{| did := "did:x" |}] = [] → matches cr cred_alice ≠ Ok true).
Proof.
  apply (validator_issuer_constraint
           (mk_request None None (Some [{| did := "did:x" |}]) None None None)
           cred_alice [{| did := "did:x" |}]).
  reflexivity.
Defined.

(** * Further properties of the gatherer *)

Lemma elem_of_push_if_nil {A} (c : option A) (item : A → Where) it :
  it ∈ push_if c item [] ↔ ∃ a, c = Some a ∧ it = item a.
Proof.
  destruct c as [a|]; simpl.
  - unfold push. simpl. rewrite list_elem_of_singleton. split.
    + intros ->. by exists a.
    + by intros (a' & [= <-] & ->).
  - split; [by intros ?%not_elem_of_nil|by intros (a & ? & _)].
Qed.

(** The entries a request contributes to [where], one by one. *)
Lemma own_filters_elem args_did sdr cr it :
  it ∈ own_filters args_did sdr cr ↔
  (∃ t, truthy (claimType cr) = Some t ∧ it = eq_item "type" t) ∨
  (∃ v, truthy (claimValue cr) = Some v ∧ it = eq_item "value" v) ∨
  (∃ iss, issuers cr = Some iss ∧
          it = {| column := "issuer"; value := map did iss; op := None |}) ∨
  (∃ t, truthy (credentialType cr) = Some t ∧
        it = like_item "credentialType" t) ∨
  (∃ c, truthy (credentialContext cr) = Some c ∧ it = like_item "context" c) ∨
  (∃ s, truthy (js_or args_did (subject sdr)) = Some s ∧
        it = eq_item "subject" s).
Proof.
  unfold own_filters, push_filters.
  rewrite (push_if_app _ _ (push_if _ _ _)), elem_of_app.
  rewrite (push_if_app _ _ (push_if _ _ _)), elem_of_app.
  rewrite (push_if_app _ _ (push_if _ _ _)), elem_of_app.
  rewrite (push_if_app _ _ (push_if _ _ _)), elem_of_app.
  rewrite (push_if_app _ _ (push_if _ _ _)), elem_of_app.
  rewrite !elem_of_push_if_nil. unfold eq_item, like_item. simpl.
  tauto.
Qed.

Lemma gather_loop_outcome store args_did sdr crs st st' res :
  gather_loop store args_did sdr crs st = (st', res) →
  let expected := expected_queries args_did sdr crs (g_where st) in
  match res with
  | Ok _ =>
      ∃ new, g_result st' = g_result st ++ new ∧
             g_queries st' = g_queries st ++ expected ∧
             map request new = crs ∧
             Forall2 (λ e q, store q = Ok (credentials e)) new expected
  | Throw err =>
      ∃ k q, k < length crs ∧
             g_queries st' = g_queries st ++ take (S k) expected ∧
             expected !! k = Some q ∧ store q = Throw err ∧
             Forall (λ q', is_Ok (store q')) (take k expected)
  end.
Proof.
  revert st st' res. induction crs as [|cr crs IH]; simpl; intros st st' res.
  - intros [= <- <-]. exists []. rewrite !app_nil_r. repeat split. constructor.
  - unfold gather_step.
    destruct (store {| where_ := push_filters args_did sdr cr (g_where st) |})
      as [creds|e] eqn:Hstore; simpl.
    + intros Hloop. apply IH in Hloop. simpl in Hloop.
      destruct res as [u|err].
      * destruct Hloop as (new & Hres & Hq & Hmap & Hall).
        exists ({| request := cr; credentials := creds |} :: new).
        rewrite Hres, Hq. unfold push. rewrite <- !app_assoc. simpl.
        repeat split; [by rewrite Hmap|]. by constructor.
      * destruct Hloop as (k & q & Hk & Hq & Hlook & Hthrow & Hall).
        exists (S k), q. rewrite Hq. unfold push. rewrite <- !app_assoc. simpl.
        repeat split; [lia|done..|].
        constructor; [|done]. rewrite Hstore. apply is_Ok_Ok.
    + intros [= <- <-]. simpl.
      exists 0, {| where_ := push_filters args_did sdr cr (g_where st) |}.
      simpl. rewrite take_0.
      split; [lia|]. split; [done|]. split; [done|].
      split; [exact Hstore|constructor].
Qed.

Lemma gather_outcome store sdr args_did :
  let out := getVerifiableCredentialsForSdr store sdr args_did in
  let expected := expected_queries args_did sdr (claims sdr) [] in
  match out.2 with
  | Ok rs => out.1 = expected ∧ map request rs = claims sdr ∧
             Forall2 (λ e q, store q = Ok (credentials e)) rs expected
  | Throw err =>
      ∃ k q, k < length (claims sdr) ∧ out.1 = take (S k) expected ∧
             expected !! k = Some q ∧ store q = Throw err ∧
             Forall (λ q', is_Ok (store q')) (take k expected)
  end.
Proof.
  simpl. unfold getVerifiableCredentialsForSdr.
  destruct (gather_loop store args_did sdr (claims sdr) _) as [st res] eqn:Hloop.
  apply gather_loop_outcome in Hloop. simpl in Hloop.
  destruct res as [u|err]; simpl.
  - destruct Hloop as (new & -> & -> & Hmap & Hall). done.
  - destruct Hloop as (k & q & Hk & -> & Hlook & Hthrow & Hall).
    by exists k, q.
Qed.

(** X10.  When the gatherer fulfils, it has sent exactly one query per
    request, in manifest order, and its [i]-th entry is the [i]-th request
    next to the credentials the store returned for the [i]-th query, as
    they came: the gatherer does no filtering of its own. *)
Theorem gatherer_returns_store_answers store sdr args_did rs :
  (getVerifiableCredentialsForSdr store sdr args_did).2 = Ok rs →
  let queries := (getVerifiableCredentialsForSdr store sdr args_did).1 in
  length queries = length (claims sdr) ∧
  length rs = length (claims sdr) ∧
  ∀ i cr, claims sdr !! i = Some cr →
    ∃ e q, rs !! i = Some e ∧ queries !! i = Some q ∧
           request e = cr ∧ store q = Ok (credentials e).
Proof.
  intros Hrs. pose proof (gather_outcome store sdr args_did) as Hout.
  simpl in Hout. rewrite Hrs in Hout. destruct Hout as (Hq & Hmap & Hall).
  simpl. rewrite Hq, expected_queries_length.
  assert (Hlen : length rs = length (claims sdr))
    by (by rewrite <- Hmap, length_map).
  split; [done|]. split; [done|].
  intros i cr Hi.
  destruct (lookup_lt_is_Some_2 rs i) as [e He].
  { rewrite Hlen. by eapply lookup_lt_Some. }
  destruct (Forall2_lookup_l _ _ _ _ _ Hall He) as (q & Hqi & Hstore).
  exists e, q. repeat split; try done.
  assert (Hm : map request rs !! i = Some (request e))
    by (by rewrite list_lookup_fmap, He).
  rewrite Hmap in Hm. congruence.
Qed.

Lemma gatherer_returns_store_answers_witness :
  let queries :=
    (getVerifiableCredentialsForSdr empty_store sdr_type None).1 in
  let rs := [{| request := mk_request None None None (Some "Profile") None None;
                credentials := [] |}] in
  length queries = length (claims sdr_type) ∧
  length rs = length (claims sdr_type) ∧
  ∀ i cr, claims sdr_type !! i = Some cr →
    ∃ e q, rs !! i = Some e ∧ queries !! i = Some q ∧
           request e = cr ∧ empty_store q = Ok (credentials e).
Proof.
  apply (gatherer_returns_store_answers empty_store sdr_type None).
  reflexivity.
Defined.

(** X11.  When the gatherer rejects, the error is the one the store gave
    for the last query sent; every query before it had been answered, no
    query is sent after it, and no partial result is returned. *)
Theorem gatherer_stops_at_first_store_error store sdr args_did err :
  (getVerifiableCredentialsForSdr store sdr args_did).2 = Throw err →
  let queries := (getVerifiableCredentialsForSdr store sdr args_did).1 in
  ∃ k q, k < length (claims sdr) ∧ length queries = S k ∧
         queries !! k = Some q ∧ store q = Throw err ∧
         ∀ j q', j < k → queries !! j = Some q' → is_Ok (store q').
Proof.
  intros Herr. pose proof (gather_outcome store sdr args_did) as Hout.
  simpl in Hout. rewrite Herr in Hout.
  destruct Hout as (k & q & Hk & Hq & Hlook & Hthrow & Hall).
  simpl. rewrite Hq. exists k, q.
  split; [done|]. split.
  { rewrite length_take, expected_queries_length. lia. }
  split; [by rewrite lookup_take_lt by lia|]. split; [done|].
  intros j q' Hj Hq'. rewrite lookup_take_lt in Hq' by lia.
  rewrite Forall_forall in Hall. apply Hall.
  apply list_elem_of_lookup. exists j. by rewrite lookup_take_lt by lia.
Qed.

Lemma gatherer_stops_at_first_store_error_witness :
  let queries :=
    (getVerifiableCredentialsForSdr store_down sdr_name_email None).1 in
  ∃ k q, k < length (claims sdr_name_email) ∧ length queries = S k ∧
         queries !! k = Some q ∧
         store_down q = Throw (Rejected "store unavailable") ∧
         ∀ j q', j < k → queries !! j = Some q' → is_Ok (store_down q').
Proof.
  apply (gatherer_stops_at_first_store_error store_down sdr_name_email None
           (Rejected "store unavailable")).
  reflexivity.
Defined.

Lemma gather_query_index store sdr args_did i q :
  (getVerifiableCredentialsForSdr store sdr args_did).1 !! i = Some q →
  i < length (claims sdr).
Proof.
  intros Hq. apply lookup_lt_Some in Hq.
  pose proof (gather_outcome store sdr args_did) as Hout. simpl in Hout.
  destruct ((getVerifiableCredentialsForSdr store sdr args_did).2) as [rs|err].
  - destruct Hout as (Heq & _). rewrite Heq, expected_queries_length in Hq. done.
  - destruct Hout as (k & q' & Hk & Heq & _).
    rewrite Heq, length_take, expected_queries_length in Hq. lia.
Qed.

(** What a query holds: entries contributed by the requests up to its
    own. *)
Lemma gather_query_elem store sdr args_did (i : nat) q it :
  (getVerifiableCredentialsForSdr store sdr args_did).1 !! i = Some q →
  (it ∈ where_ q ↔
   ∃ (j : nat) cr, (j ≤ i)%nat ∧ claims sdr !! j = Some cr ∧
           it ∈ own_filters args_did sdr cr).
Proof.
  intros Hq. rewrite (gather_queries _ _ _ _ _ Hq).
  rewrite list_elem_of_In, in_concat. split.
  - intros (l & Hl & Hit). apply in_map_iff in Hl as (cr & <- & Hcr).
    apply list_elem_of_In, list_elem_of_lookup in Hcr as [j Hj].
    apply lookup_take_Some in Hj as [Hj Hlt].
    exists j, cr. split; [lia|]. split; [done|]. by apply list_elem_of_In.
  - intros (j & cr & Hj & Hcr & Hit).
    exists (own_filters args_did sdr cr). split; [|by apply list_elem_of_In].
    apply in_map, list_elem_of_In, list_elem_of_lookup. exists j.
    rewrite lookup_take_lt; [done|lia].
Qed.

(** X12.  Every query carries the subject the call is about: [args.did]
    when it is a non-empty string, else [sdr.subject] when that is one;
    the [subject] entries of a query name no other value, and when
    neither is given no [subject] entry is sent at all. *)
Theorem gatherer_subject_filter store sdr args_did i q :
  (getVerifiableCredentialsForSdr store sdr args_did).1 !! i = Some q →
  (∀ d, truthy args_did = Some d →
     eq_item "subject" d ∈ where_ q ∧
     ∀ it, it ∈ where_ q → column it = "subject" → it = eq_item "subject" d) ∧
  (∀ s, truthy args_did = None → truthy (subject sdr) = Some s →
     eq_item "subject" s ∈ where_ q ∧
     ∀ it, it ∈ where_ q → column it = "subject" → it = eq_item "subject" s) ∧
  (truthy args_did = None → truthy (subject sdr) = None →
     ∀ it, it ∈ where_ q → column it ≠ "subject").
Proof.
  intros Hq.
  pose proof (gather_query_index _ _ _ _ _ Hq) as Hi.
  destruct (lookup_lt_is_Some_2 (claims sdr) i Hi) as [cri Hcri].
  assert (Hsubj : ∀ it, it ∈ where_ q → column it = "subject" →
            ∃ s, truthy (js_or args_did (subject sdr)) = Some s ∧
                 it = eq_item "subject" s).
  { intros it Hit Hcol.
    apply (gather_query_elem _ _ _ _ _ it Hq) in Hit as (j & cr & _ & _ & Hit).
    apply own_filters_elem in Hit
      as [(t & _ & ->)|[(v & _ & ->)|[(iss & _ & ->)|[(t & _ & ->)|
          [(c & _ & ->)|(s & Hs & ->)]]]]]; try discriminate Hcol.
    by exists s. }
  assert (Hhas : ∀ s, truthy (js_or args_did (subject sdr)) = Some s →
            eq_item "subject" s ∈ where_ q).
  { intros s Hs. apply (gather_query_elem _ _ _ _ _ _ Hq).
    exists i, cri. split; [done|]. split; [done|].
    apply own_filters_elem. do 5 right. by exists s. }
  split; [|split].
  - intros d Hd.
    assert (Hor : truthy (js_or args_did (subject sdr)) = Some d).
    { unfold js_or. rewrite Hd. apply truthy_Some in Hd as [_ Hne].
      by apply truthy_nonempty. }
    split; [by apply Hhas|].
    intros it Hit Hcol. destruct (Hsubj it Hit Hcol) as (s & Hs & ->).
    congruence.
  - intros s Hd Hs.
    assert (Hor : truthy (js_or args_did (subject sdr)) = Some s).
    { unfold js_or. by rewrite Hd. }
    split; [by apply Hhas|].
    intros it Hit Hcol. destruct (Hsubj it Hit Hcol) as (s' & Hs' & ->).
    congruence.
  - intros Hd Hs it Hit Hcol.
    destruct (Hsubj it Hit Hcol) as (s' & Hs' & _).
    unfold js_or in Hs'. rewrite Hd in Hs'. congruence.
Qed.

Lemma gatherer_subject_filter_witness :
  let q := {| where_ := [eq_item "type" "name";
                         eq_item "subject" "did:override"] |} in
  (∀ d, truthy (Some "did:override") = Some d →
     eq_item "subject" d ∈ where_ q ∧
     ∀ it, it ∈ where_ q → column it = "subject" → it = eq_item "subject" d) ∧
  (∀ s, truthy (Some "did:override") = None →
     truthy (subject sdr_with_subject) = Some s →
     eq_item "subject" s ∈ where_ q ∧
     ∀ it, it ∈ where_ q → column it = "subject" → it = eq_item "subject" s) ∧
  (truthy (Some "did:override") = None →
   truthy (subject sdr_with_subject) = None →
     ∀ it, it ∈ where_ q → column it ≠ "subject").
Proof.
  apply (gatherer_subject_filter empty_store sdr_with_subject
           (Some "did:override") 0).
  reflexivity.
Defined.

(** X13.  The [where] array of the query sent for the [i]-th request is
    the concatenation, in manifest order, of the filters of the requests
    [0..i]: it ends with the filter of the [i]-th request and, the array
    being shared by the whole loop, still starts with those of the
    requests before it.  The first query is the first request's filter
    alone. *)
Theorem gatherer_query_contents store sdr args_did i q cr :
  (getVerifiableCredentialsForSdr store sdr args_did).1 !! i = Some q →
  claims sdr !! i = Some cr →
  where_ q =
    concat (map (own_filters args_did sdr) (take i (claims sdr)))
    ++ own_filters args_did sdr cr ∧
  (i = 0 → where_ q = own_filters args_did sdr cr).
Proof.
  intros Hq Hcr.
  assert (Heq : where_ q =
    concat (map (own_filters args_did sdr) (take i (claims sdr)))
    ++ own_filters args_did sdr cr).
  { rewrite (gather_queries _ _ _ _ _ Hq).
    rewrite (take_S_r _ _ _ Hcr), map_app, concat_app. simpl.
    by rewrite app_nil_r. }
  split; [done|]. intros ->. by rewrite Heq, take_0.
Qed.

Lemma gatherer_query_contents_witness :
  let q := {| where_ := [eq_item "type" "name"; eq_item "value" "Alice";
                         eq_item "type" "email"] |} in
  let cr := mk_request (Some "email") None None None None None in
  where_ q =
    concat (map (own_filters None sdr_name_email)
              (take 1 (claims sdr_name_email)))
    ++ own_filters None sdr_name_email cr ∧
  (1 = 0 → where_ q = own_filters None sdr_name_email cr).
Proof.
  apply (gatherer_query_contents empty_store sdr_name_email None 1);
    reflexivity.
Defined.

(** X14.  In every query, the entries on the [credentialType] and
    [context] columns are the [Like] entries, their pattern being a
    non-empty string of the manifest between two [%]; every other entry
    (on [type], [value], [issuer], [subject]) is a plain equality with no
    operator. *)
Theorem gatherer_like_only_on_type_and_context store sdr args_did i q it :
  (getVerifiableCredentialsForSdr store sdr args_did).1 !! i = Some q →
  it ∈ where_ q →
  (column it ∈ ["credentialType"; "context"] ∧
   ∃ s, s ≠ "" ∧ it = like_item (column it) s) ∨
  (column it ∈ ["type"; "value"; "issuer"; "subject"] ∧ op it = None).
Proof.
  intros Hq Hit.
  apply (gather_query_elem _ _ _ _ _ it Hq) in Hit as (j & cr & _ & _ & Hit).
  apply own_filters_elem in Hit
    as [(t & _ & ->)|[(v & _ & ->)|[(iss & _ & ->)|[(t & Ht & ->)|
        [(c & Hc & ->)|(s & _ & ->)]]]]]; simpl.
  - right. split; [|done]. apply list_elem_of_In. simpl. tauto.
  - right. split; [|done]. apply list_elem_of_In. simpl. tauto.
  - right. split; [|done]. apply list_elem_of_In. simpl. tauto.
  - left. split; [apply list_elem_of_In; simpl; tauto|].
    exists t. split; [|done]. by apply truthy_Some in Ht as [_ ?].
  - left. split; [apply list_elem_of_In; simpl; tauto|].
    exists c. split; [|done]. by apply truthy_Some in Hc as [_ ?].
  - right. split; [|done]. apply list_elem_of_In. simpl. tauto.
Qed.

Lemma gatherer_like_only_on_type_and_context_witness :
  let it := like_item "credentialType" "Profile" in
  (column it ∈ ["credentialType"; "context"] ∧
   ∃ s, s ≠ "" ∧ it = like_item (column it) s) ∨
  (column it ∈ ["type"; "value"; "issuer"; "subject"] ∧ op it = None).
Proof.
  apply (gatherer_like_only_on_type_and_context empty_store sdr_type None 0
           {| where_ := [like_item "credentialType" "Profile"] |}
           (like_item "credentialType" "Profile"));
    [reflexivity | apply list_elem_of_In; simpl; left; reflexivity].
Defined.

(** * Further properties of the builder *)

(** [find] returns the first element the callback accepts. *)
Lemma find_first {A} (f : A → bool) (l : list A) (x : A) :
  List.find f l = Some x →
  ∃ pre post, l = pre ++ x :: post ∧ f x = true ∧
              Forall (λ y, f y = false) pre.
Proof.
  induction l as [|y l IH]; simpl; [done|].
  destruct (f y) eqn:Hy.
  - intros [= <-]. exists [], l. repeat split; [done|constructor].
  - intros Hfind. destruct (IH Hfind) as (pre & post & -> & Hx & Hpre).
    exists (y :: pre), post. repeat split; [done|by constructor].
Qed.

(** Every createJWT call of the builder, with what led to it. *)
Lemma builder_createJWT_call getId createJWT data payload options :
  Call_createJWT payload options
    ∈ trace (createSelectiveDisclosureRequest getId createJWT data) →
  ∃ identity key,
    getId (js_get data "issuer") = Ok identity ∧
    List.find has_signing_key_type (keys identity) = Some key ∧
    payload = delete "issuer" data ∪ {[ "type" := JStr "sdr" ]} ∧
    options = {| signer_kid := kid key; alg := "ES256K-R";
                 jwt_issuer := identity_did identity |} ∧
    settled (createSelectiveDisclosureRequest getId createJWT data)
      = createJWT payload options.
Proof.
  intros Hin.
  destruct (createSelectiveDisclosureRequest_cases getId createJWT data)
    as [(e & He & Hout) | [(identity & Hid & Hkey & _ & Hno & _)
      | (identity & key & Hid & Hkey & Hout)]].
  - rewrite Hout in Hin. simpl in Hin.
    apply list_elem_of_In in Hin. simpl in Hin. by destruct Hin as [?|[]].
  - by apply Hno in Hin.
  - rewrite Hout in Hin |- *. simpl in Hin |- *.
    apply list_elem_of_In in Hin. simpl in Hin.
    destruct Hin as [?|[?|[[= <- <-]|[]]]]; [done..|].
    by exists identity, key.
Qed.

Lemma builder_trace_head getId createJWT data :
  head (trace (createSelectiveDisclosureRequest getId createJWT data)) =
    Some (Call_identityManagerGetIdentity (js_get data "issuer")).
Proof.
  unfold createSelectiveDisclosureRequest.
  destruct (getId (js_get data "issuer")) as [identity|e]; [|done].
  by destruct (List.find has_signing_key_type (keys identity)).
Qed.

(** X15.  The builder rejects in three ways only: with the identity
    manager's error, before anything else is done; with [Error("Signing
    key not found")] when the identity has no [Secp256k1] key, without
    calling [createJWT]; or with the error of the [createJWT] call it
    made. *)
Theorem builder_rejections getId createJWT data err :
  let out := createSelectiveDisclosureRequest getId createJWT data in
  settled out = Throw err →
  (getId (js_get data "issuer") = Throw err ∧
   trace out = [Call_identityManagerGetIdentity (js_get data "issuer")]) ∨
  (∃ identity, getId (js_get data "issuer") = Ok identity ∧
     List.find has_signing_key_type (keys identity) = None ∧
     err = Error "Signing key not found" ∧
     ∀ payload options, Call_createJWT payload options ∉ trace out) ∨
  (∃ payload options, Call_createJWT payload options ∈ trace out ∧
     createJWT payload options = Throw err).
Proof.
  intros out Hset.
  destruct (createSelectiveDisclosureRequest_cases getId createJWT data)
    as [(e & He & Hout) | [(identity & Hid & Hkey & _ & Hno & Hthrow)
      | (identity & key & Hid & Hkey & Hout)]]; fold out in Hout || idtac.
  - left. fold out in Hout. rewrite Hout in Hset |- *. simpl in *.
    injection Hset as ->. done.
  - right. left. fold out in Hno, Hthrow. rewrite Hthrow in Hset.
    injection Hset as <-. by exists identity.
  - right. right. fold out in Hout. rewrite Hout in Hset |- *. simpl in *.
    eexists _, _. split; [|exact Hset].
    apply list_elem_of_In. simpl. right. right. left. reflexivity.
Qed.

Lemma builder_rejections_witness :
  let out := createSelectiveDisclosureRequest resolver_z jwt_stub ∅ in
  let err := Rejected "Identity not found" in
  (resolver_z (js_get ∅ "issuer") = Throw err ∧
   trace out = [Call_identityManagerGetIdentity (js_get ∅ "issuer")]) ∨
  (∃ identity, resolver_z (js_get ∅ "issuer") = Ok identity ∧
     List.find has_signing_key_type (keys identity) = None ∧
     err = Error "Signing key not found" ∧
     ∀ payload options, Call_createJWT payload options ∉ trace out) ∨
  (∃ payload options, Call_createJWT payload options ∈ trace out ∧
     jwt_stub payload options = Throw err).
Proof.
  apply (builder_rejections resolver_z jwt_stub ∅
           (Rejected "Identity not found")).
  reflexivity.
Defined.

(** X16.  The token is signed with the first [Secp256k1] key of the
    resolved identity, in the order of [identity.keys]: the keys before it
    are of another type, and its [kid] is the one the signer uses. *)
Theorem builder_signs_with_first_Secp256k1_key
    getId createJWT data payload options :
  Call_createJWT payload options
    ∈ trace (createSelectiveDisclosureRequest getId createJWT data) →
  ∃ identity pre key post,
    getId (js_get data "issuer") = Ok identity ∧
    keys identity = pre ++ key :: post ∧
    Forall (λ k, key_type k ≠ "Secp256k1") pre ∧
    key_type key = "Secp256k1" ∧
    signer_kid options = kid key.
Proof.
  intros Hin.
  apply builder_createJWT_call in Hin
    as (identity & key & Hid & Hkey & _ & -> & _).
  apply find_first in Hkey as (pre & post & Hkeys & Hk & Hpre).
  exists identity, pre, key, post. repeat split; try done.
  - eapply Forall_impl; [exact Hpre|]. intros k Hf.
    unfold has_signing_key_type in Hf. by apply String.eqb_neq.
  - unfold has_signing_key_type in Hk. by apply String.eqb_eq.
Qed.

Lemma builder_signs_with_first_Secp256k1_key_witness :
  ∃ identity pre key post,
    resolver_multi (js_get manifest_z "issuer") = Ok identity ∧
    keys identity = pre ++ key :: post ∧
    Forall (λ k, key_type k ≠ "Secp256k1") pre ∧
    key_type key = "Secp256k1" ∧
    signer_kid {| signer_kid := "key-a"; alg := "ES256K-R";
                  jwt_issuer := "did:z" |} = kid key.
Proof.
  apply (builder_signs_with_first_Secp256k1_key resolver_multi jwt_stub
           manifest_z (delete "issuer" manifest_z ∪ {[ "type" := JStr "sdr" ]})).
  apply list_elem_of_In. simpl. right. right. left. reflexivity.
Defined.

(** X17.  A [type] property of the manifest wins over the builder's own:
    [{ type: 'sdr', ...data }] spreads the manifest last, so the payload
    handed to [createJWT] carries the manifest's [type], not ["sdr"]. *)
Theorem builder_manifest_type_wins
    getId createJWT (data : JSObject) (v : JSVal) payload options :
  data !! "type" = Some v →
  Call_createJWT payload options
    ∈ trace (createSelectiveDisclosureRequest getId createJWT data) →
  payload !! "type" = Some v.
Proof.
  intros Hty Hin.
  apply builder_createJWT_call in Hin as (_ & _ & _ & _ & -> & _).
  apply lookup_union_Some_l. by rewrite lookup_delete_ne.
Qed.

Lemma builder_manifest_type_wins_witness :
  (delete "issuer" manifest_typed ∪ {[ "type" := JStr "sdr" ]} : JSObject)
    !! "type" = Some (JStr "other").
Proof.
  apply (builder_manifest_type_wins resolver_z jwt_stub manifest_typed
           (JStr "other") _
           {| signer_kid := "key-1"; alg := "ES256K-R";
              jwt_issuer := "did:z" |});
    [reflexivity | apply list_elem_of_In; simpl; right; right; left; reflexivity].
Defined.

(** X18.  Nothing of the manifest is lost on the way to the signer: for a
    manifest with an [issuer] and no [type], putting the issuer back into
    the payload and dropping its [type] gives the manifest again. *)
Theorem builder_payload_round_trip
    getId createJWT (data : JSObject) (d : JSVal) payload options :
  data !! "issuer" = Some d →
  data !! "type" = None →
  Call_createJWT payload options
    ∈ trace (createSelectiveDisclosureRequest getId createJWT data) →
  <["issuer" := d]> (delete "type" payload) = data.
Proof.
  intros Hd Hty Hin.
  apply builder_createJWT_call in Hin as (_ & _ & _ & _ & -> & _).
  apply map_eq. intros k.
  destruct (decide (k = "issuer")) as [->|Hk1].
  { by rewrite lookup_insert_eq. }
  rewrite lookup_insert_ne by done.
  destruct (decide (k = "type")) as [->|Hk2].
  { by rewrite lookup_delete_eq. }
  rewrite lookup_delete_ne by done.
  rewrite lookup_union_l by (by rewrite lookup_singleton_ne).
  by rewrite lookup_delete_ne.
Qed.

Lemma builder_payload_round_trip_witness :
  <["issuer" := JStr "did:z"]>
    (delete "type" (delete "issuer" manifest_z ∪ {[ "type" := JStr "sdr" ]}))
  = manifest_z.
Proof.
  apply (builder_payload_round_trip resolver_z jwt_stub manifest_z
           (JStr "did:z") _
           {| signer_kid := "key-1"; alg := "ES256K-R";
              jwt_issuer := "did:z" |});
    [reflexivity | reflexivity
    | apply list_elem_of_In; simpl; right; right; left; reflexivity].
Defined.

(** X19.  The builder cannot be called twice on the same object: once a
    call has resolved the identity, the object has no [issuer] left, so a
    second call on it starts by asking the identity manager for the
    identity [undefined]; it changes the object no further. *)
Theorem builder_second_call_has_no_issuer getId createJWT (data : JSObject) :
  is_Ok (getId (js_get data "issuer")) →
  let out1 := createSelectiveDisclosureRequest getId createJWT data in
  let out2 :=
    createSelectiveDisclosureRequest getId createJWT (data_after out1) in
  head (trace out2) = Some (Call_identityManagerGetIdentity JUndefined) ∧
  data_after out2 = data_after out1.
Proof.
  intros [identity Hid] out1 out2.
  assert (Hafter : data_after out1 = delete "issuer" data).
  { destruct (createSelectiveDisclosureRequest_cases getId createJWT data)
      as [(e & He & _) | [(identity' & _ & _ & Hout & _)
        | (identity' & key & _ & _ & Hout)]]; [congruence|done|].
    fold out1 in Hout. by rewrite Hout. }
  assert (Hget : js_get (data_after out1) "issuer" = JUndefined).
  { rewrite Hafter. unfold js_get. by rewrite lookup_delete_eq. }
  split.
  - unfold out2. by rewrite builder_trace_head, Hget.
  - destruct (createSelectiveDisclosureRequest_cases getId createJWT
                (data_after out1))
      as [(e & _ & Hout) | [(identity' & _ & _ & Hout & _)
        | (identity' & key & _ & _ & Hout)]]; fold out2 in Hout.
    + by rewrite Hout.
    + rewrite Hout, Hafter. apply delete_delete_eq.
    + rewrite Hout. simpl. rewrite Hafter. apply delete_delete_eq.
Qed.

Lemma builder_second_call_has_no_issuer_witness :
  let out1 := createSelectiveDisclosureRequest resolver_z jwt_stub manifest_z in
  let out2 :=
    createSelectiveDisclosureRequest resolver_z jwt_stub (data_after out1) in
  head (trace out2) = Some (Call_identityManagerGetIdentity JUndefined) ∧
  data_after out2 = data_after out1.
Proof.
  apply (builder_second_call_has_no_issuer resolver_z jwt_stub manifest_z).
  exists identity_z. reflexivity.
Defined.

(** * Validity and the shape of the manifest *)

(** X20.  Whether a presentation is valid depends on which requests the
    manifest holds, not on their order or on how often one is repeated:
    two manifests with the same requests give the same [valid] on the
    same presentation. *)
Theorem valid_ignores_order_and_repetition sdr1 sdr2 presentation r1 r2 :
  (∀ cr, cr ∈ claims sdr1 ↔ cr ∈ claims sdr2) →
  validatePresentationAgainstSdr sdr1 presentation = Ok r1 →
  validatePresentationAgainstSdr sdr2 presentation = Ok r2 →
  valid r1 = valid r2.
Proof.
  intros Hsame H1 H2.
  apply validate_valid_true_iff in H1. apply validate_valid_true_iff in H2.
  destruct (valid r1) eqn:E1, (valid r2) eqn:E2; try done.
  - assert (Hall : false = true); [|done].
    apply H2. intros cr Hcr. apply H1; [done|]. by apply Hsame.
  - assert (Hall : false = true); [|done].
    apply H1. intros cr Hcr. apply H2; [done|]. by apply Hsame.
Qed.

Lemma valid_ignores_order_and_repetition_witness :
  valid {| valid := true;
           result_claims := [{| request := claim_name_essential;
                                credentials := [cred_alice] |}] |} =
  valid {| valid := true;
           result_claims := [{| request := claim_name_essential;
                                credentials := [cred_alice] |};
                             {| request := claim_name_essential;
                                credentials := [cred_alice] |}] |}.
Proof.
  apply (valid_ignores_order_and_repetition sdr_name
           {| subject := None;
              claims := [claim_name_essential; claim_name_essential] |}
           {| verifiableCredential := [cred_alice] |});
    [ | reflexivity | reflexivity].
  intros cr. simpl. rewrite !list_elem_of_In. simpl. tauto.
Defined.
